(** * ghttp: Swagger document generation and generic JSON handlers

    A shallow embedding of the two Go packages of the repository:

    - package [ghttp] (handlers.go): the generic JSON handler adapters, the
      two capability interfaces [ResponseTyper] / [PayloadTyper] and the
      process-wide invalid-payload fallback;
    - package [chi] (the Swagger generator): [initializeDoc], [addDefinition],
      [getName] and [getProperty].

    Go maps are [gmap]s, [reflect.Type] values are a tree of type
    descriptors, a nil pointer dereference is the [Panicked] outcome, and
    the standard logger is the list of lines written so far. *)

From Stdlib Require Import ZArith Ascii String List Lia.
From stdpp Require Import base option list gmap strings fin_maps.

Local Open Scope string_scope.
Local Open Scope list_scope.

Set Warnings "-register-all".

(** ** Outcomes: a value, or a run-time panic; together with the log *)

Module Run.

Inductive Outcome (A : Type) : Type :=
| Returned (a : A)
| Panicked (msg : string).
Arguments Returned {A} a.
Arguments Panicked {A} msg.

(** A computation yields the lines it handed to [log.Printf], in order,
    and how it ended. *)
Definition M (A : Type) : Type := (list string * Outcome A)%type.

Definition ret {A} (a : A) : M A := ([], Returned a).
Definition panic {A} (msg : string) : M A := ([], Panicked msg).
Definition logPrintf (line : string) : M unit := ([line], Returned tt).

Definition bind {A B} (m : M A) (k : A -> M B) : M B :=
  match m with
  | (l, Returned a) => let '(l', o) := k a in (l ++ l', o)
  | (l, Panicked msg) => (l, Panicked msg)
  end.

(** The computation ends normally. *)
Definition returns {A} (m : M A) : Prop := exists a, snd m = Returned a.

(** The message of the Go runtime for a nil dereference. *)
Definition nilDeref : string :=
  "runtime error: invalid memory address or nil pointer dereference".

End Run.
Export Run.

Declare Scope run_scope.
Delimit Scope run_scope with run.
Notation "'let*' x ':=' m 'in' k" := (bind m (fun x => k))
  (at level 10, x pattern, m at level 100, k at level 200) : run_scope.
Local Open Scope run_scope.

(** ** package reflect: kinds and type descriptors *)

Module reflect.

(** Kinds whose descriptor the generator never opens ([Elem] and
    [NumField] are only called under Array, Pointer, Slice and Struct). *)
Inductive LeafKind : Type :=
| KInvalid | KBool
| KInt | KInt8 | KInt16 | KInt32 | KInt64
| KUint | KUint8 | KUint16 | KUint32 | KUint64 | KUintptr
| KFloat32 | KFloat64 | KComplex64 | KComplex128
| KChan | KFunc | KInterface | KMap | KString | KUnsafePointer.

Inductive Kind : Type :=
| Leaf (k : LeafKind)
| KArray | KPointer | KSlice | KStruct.

(** [Kind.String] *)
Definition Kind_String (k : Kind) : string :=
  match k with
  | Leaf KInvalid => "invalid" | Leaf KBool => "bool"
  | Leaf KInt => "int" | Leaf KInt8 => "int8" | Leaf KInt16 => "int16"
  | Leaf KInt32 => "int32" | Leaf KInt64 => "int64"
  | Leaf KUint => "uint" | Leaf KUint8 => "uint8" | Leaf KUint16 => "uint16"
  | Leaf KUint32 => "uint32" | Leaf KUint64 => "uint64"
  | Leaf KUintptr => "uintptr"
  | Leaf KFloat32 => "float32" | Leaf KFloat64 => "float64"
  | Leaf KComplex64 => "complex64" | Leaf KComplex128 => "complex128"
  | KArray => "array"
  | Leaf KChan => "chan" | Leaf KFunc => "func"
  | Leaf KInterface => "interface" | Leaf KMap => "map"
  | KPointer => "ptr" | KSlice => "slice"
  | Leaf KString => "string" | KStruct => "struct"
  | Leaf KUnsafePointer => "unsafe.Pointer"
  end.

(** A struct field as the generator reads it: [jsonTag] is the value of
    [f.Tag.Get("json")], the empty string when the field has no json tag. *)
Record StructField (T : Type) : Type := mkField
  { FieldName : string; jsonTag : string; FieldType : T }.
Arguments mkField {T} _ _ _.
Arguments FieldName {T} _.
Arguments jsonTag {T} _.
Arguments FieldType {T} _.

(** A non-nil [reflect.Type].  [name] is [t.Name()] (empty for unnamed
    types), [str] is [t.String()] (the package-qualified form).
    Descriptors are finite trees: a type that refers to itself, through a
    pointer or a slice, has none here; on such a type [getProperty] goes
    on recursing and gives no result. *)
Inductive rtype : Type :=
| TLeaf (k : LeafKind) (name str : string)
| TArray (name str : string) (len : N) (elem : rtype)
| TPointer (name str : string) (elem : rtype)
| TSlice (name str : string) (elem : rtype)
| TStruct (name str : string) (fields : list (StructField rtype)).

Definition kind (t : rtype) : Kind :=
  match t with
  | TLeaf k _ _ => Leaf k
  | TArray _ _ _ _ => KArray
  | TPointer _ _ _ => KPointer
  | TSlice _ _ _ => KSlice
  | TStruct _ _ _ => KStruct
  end.

Definition Name (t : rtype) : string :=
  match t with
  | TLeaf _ n _ | TArray n _ _ _ | TPointer n _ _
  | TSlice n _ _ | TStruct n _ _ => n
  end.

Definition String_ (t : rtype) : string :=
  match t with
  | TLeaf _ _ s | TArray _ s _ _ | TPointer _ s _
  | TSlice _ s _ | TStruct _ s _ => s
  end.

(** A [reflect.Type] interface value: nil, or a descriptor. *)
Definition Type_ : Type := option rtype.

(** [reflect.TypeOf(v)] for [var v T]: the zero value of an interface
    type is the nil interface, whose [TypeOf] is nil. *)
Definition TypeOf_zero (T : rtype) : Type_ :=
  match kind T with
  | Leaf KInterface => None
  | _ => Some T
  end.

End reflect.

(** ** package strings *)

Module gostrings.

(** [strings.ReplaceAll(s, old, new)] for one-byte [old] and [new]. *)
Fixpoint ReplaceAll (s : string) (old new : ascii) : string :=
  match s with
  | EmptyString => EmptyString
  | String.String c rest =>
      String.String (if Ascii.eqb c old then new else c)
                    (ReplaceAll rest old new)
  end.

(** [strings.Split(s, sep)[0]] for a one-byte separator: the bytes before
    the first separator, all of [s] when there is none.  [Split] with a
    non-empty separator never returns an empty slice, so the index is in
    range. *)
Fixpoint Split_first (s : string) (sep : ascii) : string :=
  match s with
  | EmptyString => EmptyString
  | String.String c rest =>
      if Ascii.eqb c sep then EmptyString
      else String.String c (Split_first rest sep)
  end.

End gostrings.

(** ** package spec (github.com/go-openapi/spec): the document model

    Only the fields the generator sets are kept.  A nil map and an empty
    map are both [∅]; a nil [*T] is [None]. *)

Module spec.

(** [spec.Schema]: [SchemaType] is [StringOrArray], [Ref] is the
    reference string ("" when unset). *)
Inductive Schema : Type :=
  mkSchema (SchemaType : list string) (Format : string) (Nullable : bool)
           (Items : option Schema) (Properties : gmap string Schema)
           (Ref : string).

Definition SchemaType (s : Schema) : list string :=
  let '(mkSchema t _ _ _ _ _) := s in t.
Definition Format (s : Schema) : string :=
  let '(mkSchema _ f _ _ _ _) := s in f.
Definition Nullable (s : Schema) : bool :=
  let '(mkSchema _ _ n _ _ _) := s in n.
Definition Items (s : Schema) : option Schema :=
  let '(mkSchema _ _ _ i _ _) := s in i.
Definition Properties (s : Schema) : gmap string Schema :=
  let '(mkSchema _ _ _ _ p _) := s in p.
Definition Ref (s : Schema) : string :=
  let '(mkSchema _ _ _ _ _ r) := s in r.

(** [property.Nullable = true] through a non-nil pointer. *)
Definition set_Nullable (s : Schema) (b : bool) : Schema :=
  let '(mkSchema t f _ i p r) := s in mkSchema t f b i p r.

Definition typed (ty fmt : string) : Schema :=
  mkSchema [ty] fmt false None ∅ "".

Definition BooleanProperty : Schema := typed "boolean" "".
Definition StringProperty : Schema := typed "string" "".
Definition StrFmtProperty (format : string) : Schema := typed "string" format.
Definition DateProperty : Schema := typed "string" "date".
Definition Int8Property : Schema := typed "integer" "int8".
Definition Int16Property : Schema := typed "integer" "int16".
Definition Int32Property : Schema := typed "integer" "int32".
Definition Int64Property : Schema := typed "integer" "int64".
Definition Float32Property : Schema := typed "number" "float".
Definition Float64Property : Schema := typed "number" "double".

(** [ArrayProperty(items *Schema)]: a nil [items] gives an array schema
    without an item schema. *)
Definition ArrayProperty (items : option Schema) : Schema :=
  mkSchema ["array"] "" false items ∅ "".

Definition RefProperty (name : string) : Schema :=
  mkSchema [] "" false None ∅ name.

(** [spec.Parameter]: [ParamType] is [SimpleSchema.Type]. *)
Record Param : Type := mkParam
  { ParamName : string; In : string; Required : bool;
    ParamType : string; ParamSchema : option Schema }.

Definition PathParam (name : string) : Param :=
  {| ParamName := name; In := "path"; Required := true;
     ParamType := ""; ParamSchema := None |}.

Definition BodyParam (name : string) (schema : Schema) : Param :=
  {| ParamName := name; In := "body"; Required := false;
     ParamType := ""; ParamSchema := Some schema |}.

Record Response : Type := mkResponse { RespSchema : option Schema }.

Definition NewResponse : Response := {| RespSchema := None |}.

Record Operation : Type := mkOperation
  { ID : string;
    OpParameters : list Param;
    StatusCodeResponses : gmap Z Response }.

Definition NewOperation (id : string) : Operation :=
  {| ID := id; OpParameters := []; StatusCodeResponses := ∅ |}.

Definition same_slot (p q : Param) : bool :=
  String.eqb (ParamName p) (ParamName q) && String.eqb (In p) (In q).

(** The loop of [Operation.AddParam]: the first parameter with the same
    name and location is replaced in place. *)
Fixpoint replace_param (ps : list Param) (param : Param)
  : option (list Param) :=
  match ps with
  | [] => None
  | p :: rest =>
      if same_slot p param then Some (param :: rest)
      else match replace_param rest param with
           | Some rest' => Some (p :: rest')
           | None => None
           end
  end.

(** [Operation.AddParam]: replace the parameter of that name and
    location when there is one, append otherwise. *)
Definition AddParam (o : Operation) (param : Param) : Operation :=
  {| ID := ID o;
     OpParameters := match replace_param (OpParameters o) param with
                   | Some ps => ps
                   | None => OpParameters o ++ [param]
                   end;
     StatusCodeResponses := StatusCodeResponses o |}.

Definition RespondsWith (o : Operation) (code : Z) (r : Response)
  : Operation :=
  {| ID := ID o; OpParameters := OpParameters o;
     StatusCodeResponses := <[code := r]> (StatusCodeResponses o) |}.

(** [spec.PathItem]: one slot per method, nil when unset. *)
Record PathItem : Type := mkPathItem
  { Get : option Operation; Put : option Operation;
    Post : option Operation; Delete : option Operation;
    Options : option Operation; Head : option Operation;
    Patch : option Operation }.

Definition emptyPathItem : PathItem :=
  mkPathItem None None None None None None None.

(** [spec.Swagger] *)
Record Swagger : Type := mkSwagger
  { SwaggerVersion : string;
    Definitions : gmap string Schema;
    Paths : gmap string PathItem }.

End spec.

Import reflect spec.

(** ** package chi: the Swagger generator *)

(** [getName]: a pointer is named by [*] and its pointee's name, any other
    type by its declared name with [/] replaced by [.]. *)
Fixpoint getName (t : rtype) : string :=
  match t with
  | TPointer _ _ elem => "*" ++ getName elem
  | _ => gostrings.ReplaceAll (Name t) "/" "."
  end.

Definition newline : string := String.String (ascii_of_nat 10) EmptyString.

(** The line [getProperty] hands to [log.Printf] for a kind it has no case
    for. *)
Definition unknownKindLine (t : rtype) : string :=
  "Unknown kind for swagger property: " ++ getName t ++ " "
    ++ Kind_String (kind t) ++ newline.

(** The key of a struct field in the object schema:
    [strings.Split(f.Tag.Get("json"), ",")[0]]. *)
Definition fieldKey (f : StructField rtype) : string :=
  gostrings.Split_first (jsonTag f) ",".

(** The loop over the fields of a struct in [getProperty], with the
    recursive call as an argument: a field whose schema is nil leaves the
    properties as they are, any other is stored under its key. *)
Definition fieldsLoop (getProperty : rtype -> M (option Schema))
  : list (StructField rtype) -> gmap string Schema -> M (gmap string Schema) :=
  fix loop fs props :=
    match fs with
    | [] => ret props
    | f :: rest =>
        let* property := getProperty (FieldType f) in
        loop rest
             match property with
             | Some p => <[fieldKey f := p]> props
             | None => props
             end
    end.

(** The struct literal of [getProperty]: only [Properties] is set. *)
Definition objectSchema (props : gmap string Schema) : Schema :=
  mkSchema [] "" false None props "".

(** [getProperty]: the result is a [*spec.Schema], nil being [None].  The
    first switch is on [t.String()], the second on [t.Kind()]. *)
Fixpoint getProperty (t : rtype) : M (option Schema) :=
  if String.eqb (String_ t) "uuid.UUID" then ret (Some (StrFmtProperty "uuid"))
  else if String.eqb (String_ t) "date.DateString" then ret (Some DateProperty)
  else
    match t with
    | TLeaf KBool _ _ => ret (Some BooleanProperty)
    | TLeaf KInt _ _ => ret (Some Int64Property)
    | TLeaf KInt8 _ _ => ret (Some Int8Property)
    | TLeaf KInt16 _ _ => ret (Some Int16Property)
    | TLeaf KInt32 _ _ => ret (Some Int32Property)
    | TLeaf KInt64 _ _ => ret (Some Int64Property)
    | TLeaf KUint _ _ => ret (Some Int64Property)
    | TLeaf KUint8 _ _ => ret (Some Int8Property)
    | TLeaf KUint16 _ _ => ret (Some Int16Property)
    | TLeaf KUint32 _ _ => ret (Some Int32Property)
    | TLeaf KUint64 _ _ => ret (Some Int64Property)
    | TLeaf KFloat32 _ _ => ret (Some Float32Property)
    | TLeaf KFloat64 _ _ => ret (Some Float64Property)
    | TArray _ _ _ elem =>
        let* items := getProperty elem in
        ret (Some (ArrayProperty items))
    | TPointer _ _ elem =>
        let* property := getProperty elem in
        match property with
        | Some p => ret (Some (set_Nullable p true))
        | None => panic nilDeref
        end
    | TSlice _ _ elem =>
        let* items := getProperty elem in
        ret (Some (ArrayProperty items))
    | TLeaf KString _ _ => ret (Some StringProperty)
    | TStruct _ _ fields =>
        let* props := fieldsLoop getProperty fields ∅ in
        ret (Some (objectSchema props))
    | TLeaf _ _ _ =>
        let* _ := logPrintf (unknownKindLine t) in
        ret None
    end.

(** ** package net/http: the constants used *)

Module http.
Definition StatusOK : Z := 200.
Definition StatusBadGateway : Z := 502.
Definition MethodGet : string := "GET".
Definition MethodHead : string := "HEAD".
Definition MethodPost : string := "POST".
Definition MethodPut : string := "PUT".
Definition MethodPatch : string := "PATCH".
Definition MethodDelete : string := "DELETE".
Definition MethodOptions : string := "OPTIONS".

(** [checkWriteHeaderCode]: [WriteHeader] panics on a status that does not
    have three digits. *)
Definition checkWriteHeaderCode (code : Z) : bool :=
  (100 <=? code)%Z && (code <=? 999)%Z.
End http.

(** ** package ghttp (handlers.go) *)

Module ghttp.

(** *** Method sets and the two capability interfaces *)

(** The three types handlers.go declares methods on. *)
Inductive Declared : Type :=
| DJSONHandler | DJSONPayloadHandler | DJSONPayloadHandlerFunc.

Inductive MethodName : Type :=
| mServeHTTP | mResponseType | mPayloadType.

Definition MethodName_eqb (a b : MethodName) : bool :=
  match a, b with
  | mServeHTTP, mServeHTTP | mResponseType, mResponseType
  | mPayloadType, mPayloadType => true
  | _, _ => false
  end.

(** The method declarations of handlers.go, by receiver type.
    [JSONPayloadHandler] has a named field of type
    [JSONPayloadHandlerFunc], not an embedded one, so none of the
    methods of the field's type are promoted to the struct. *)
Definition methodSet (d : Declared) : list MethodName :=
  match d with
  | DJSONHandler => [mServeHTTP; mResponseType]
  | DJSONPayloadHandler => [mServeHTTP]
  | DJSONPayloadHandlerFunc => [mPayloadType; mResponseType]
  end.

Definition hasMethod (d : Declared) (m : MethodName) : bool :=
  existsb (MethodName_eqb m) (methodSet d).

(** A type implements [http.Handler] when it has [ServeHTTP]. *)
Definition implementsHandler (d : Declared) : bool := hasMethod d mServeHTTP.

(** An [http.Handler] value as the route walker sees it: its dynamic
    type with the type arguments.  [Foreign] is a handler of a type
    declared outside this package: [payloadType] is [Some t] when that
    type has a [PayloadType] method returning [t], and likewise
    [responseType]. *)
Inductive Handler : Type :=
| JSONHandler (O : rtype)
| JSONPayloadHandler (I O : rtype)
| Foreign (payloadType responseType : option Type_).

(** [NewJSONHandler[O](fn)] and [NewJSONPayloadHandler[I, O](fn)]; the
    callback plays no part in the document. *)
Definition NewJSONHandler (O : rtype) : Handler := JSONHandler O.
Definition NewJSONPayloadHandler (I O : rtype) : Handler :=
  JSONPayloadHandler I O.

(** The methods themselves: [var v T; return reflect.TypeOf(v)]. *)
Definition JSONHandler_ResponseType (O : rtype) : Type_ := TypeOf_zero O.
Definition JSONPayloadHandlerFunc_PayloadType (I O : rtype) : Type_ :=
  TypeOf_zero I.
Definition JSONPayloadHandlerFunc_ResponseType (I O : rtype) : Type_ :=
  TypeOf_zero O.

(** [handler.(ghttp.PayloadTyper)]: the assertion succeeds when the
    dynamic type of [handler] has the method; the result is what
    [PayloadType()] returns on it. *)
Definition PayloadTyper (h : Handler) : option Type_ :=
  match h with
  | JSONHandler tO =>
      if hasMethod DJSONHandler mPayloadType then Some None else None
  | JSONPayloadHandler tI tO =>
      if hasMethod DJSONPayloadHandler mPayloadType
      then Some (JSONPayloadHandlerFunc_PayloadType tI tO) else None
  | Foreign pt _ => pt
  end.

(** [handler.(ghttp.ResponseTyper)] *)
Definition ResponseTyper (h : Handler) : option Type_ :=
  match h with
  | JSONHandler tO =>
      if hasMethod DJSONHandler mResponseType
      then Some (JSONHandler_ResponseType tO) else None
  | JSONPayloadHandler tI tO =>
      if hasMethod DJSONPayloadHandler mResponseType
      then Some (JSONPayloadHandlerFunc_ResponseType tI tO) else None
  | Foreign _ rt => rt
  end.

(** *** Serving a request *)

Section Serve.

(** [I] and [O] are the type arguments; [V] stands for whatever else a
    replaced fallback may return as [interface{}]; [Err] is [error]. *)
Variables (I O V Request Err : Type).

(** The [interface{}] value in [resp]. *)
Inductive any : Type :=
| anyO (o : O)
| anyString (s : string)
| anyV (v : V).

Definition InvalidJSONPayloadHandler : Type := Err -> any * Z.

(** The package-level variable and its initial value. *)
Record Globals : Type := mkGlobals
  { defaultInvalidJSONPayloadHandler : InvalidJSONPayloadHandler }.

Definition initialGlobals : Globals :=
  {| defaultInvalidJSONPayloadHandler :=
       fun _ => (anyString "Invalid payload", http.StatusBadGateway) |}.

Definition SetDefaultInvalidJSONPayloadHandler
    (fn : InvalidJSONPayloadHandler) (g : Globals) : Globals :=
  {| defaultInvalidJSONPayloadHandler := fn |}.

(** What a served request does, in order: which callback ran, and
    what was done to the [http.ResponseWriter]. *)
Inductive Event : Type :=
| CalledHandlerFunc (r : Request) (payload : I)
| CalledInvalidPayloadHandler (e : Err)
| HeaderSet (key value : string)
| WroteHeader (statusCode : Z)
| WriteHeaderPanicked (statusCode : Z)
| Encoded (resp : any)
| Printed (e : Err).

(** [dec.Decode(&payload)]: the error, or the decoded payload;
    [enc.Encode(resp)]: the error when encoding fails. *)
Variable decode : Request -> Err + I.
Variable encode : any -> option Err.

(** The tail shared by both [ServeHTTP] methods.  The status comes from
    the callback or the fallback as it is; [w.WriteHeader] panics on one
    outside 100..999, and then nothing more is done for the request. *)
Definition respond (resp : any) (statusCode : Z) : list Event :=
  HeaderSet "Content-Type" "application/json"
  :: if http.checkWriteHeaderCode statusCode
     then [WroteHeader statusCode; Encoded resp]
          ++ match encode resp with
             | Some err => [Printed err]
             | None => []
             end
     else [WriteHeaderPanicked statusCode].

(** [JSONHandler[O].ServeHTTP] *)
Definition JSONHandler_ServeHTTP
    (handlerFn : Request -> O * Z) (r : Request) : list Event :=
  let '(resp, statusCode) := handlerFn r in
  respond (anyO resp) statusCode.

(** [JSONPayloadHandler[I, O].ServeHTTP] *)
Definition JSONPayloadHandler_ServeHTTP (g : Globals)
    (handlerFunc : Request -> I -> O * Z) (r : Request) : list Event :=
  match decode r with
  | inr payload =>
      let '(resp, statusCode) := handlerFunc r payload in
      CalledHandlerFunc r payload :: respond (anyO resp) statusCode
  | inl err =>
      let '(resp, statusCode) := defaultInvalidJSONPayloadHandler g err in
      CalledInvalidPayloadHandler err :: respond resp statusCode
  end.

End Serve.

End ghttp.

(** ** package regexp, at the one pattern of the generator *)

Module regexp.

(** The longest prefix without a closing brace ([[^}]*], greedy), and
    what follows it. *)
Fixpoint spanNotClose (s : string) : string * string :=
  match s with
  | EmptyString => (EmptyString, EmptyString)
  | String.String c rest =>
      if Ascii.eqb c "}" then (EmptyString, s)
      else let '(run, tl) := spanNotClose rest in (String.String c run, tl)
  end.

(** A match of [{([^}]+)}] starting at the first byte of [s]: the text of
    group 1 and the input after the match.  The group cannot contain a
    closing brace and must be followed by one, so it is the whole run up
    to the first closing brace; it may not be empty. *)
Definition matchAt (s : string) : option (string * string) :=
  match s with
  | String.String "{"%char rest =>
      match spanNotClose rest with
      | (String.String c run, String.String "}"%char tl) =>
          Some (String.String c run, tl)
      | _ => None
      end
  | _ => None
  end.

(** Leftmost matches, none overlapping: try at the current byte, go on
    after the match, or one byte further when there is none.  An entry
    is the pair of the whole match (index 0) and group 1 (index 1). *)
Fixpoint findAll (fuel : nat) (s : string) : list (string * string) :=
  match fuel with
  | 0 => []
  | S fuel' =>
      match s with
      | EmptyString => []
      | String.String _ rest =>
          match matchAt s with
          | Some (g, tl) => (("{" ++ g ++ "}")%string, g) :: findAll fuel' tl
          | None => findAll fuel' rest
          end
      end
  end.

(** [pathParamPattern.FindAllStringSubmatch(s, -1)]; every step consumes
    a byte, so the length of [s] is fuel enough. *)
Definition FindAllStringSubmatch (s : string) : list (string * string) :=
  findAll (String.length s) s.

End regexp.

(** ** package chi, continued: the route walk *)

(** [getName] and [getProperty] on a [reflect.Type] interface value: the
    first method call on a nil one panics. *)
Definition getName_ (t : Type_) : M string :=
  match t with
  | Some t' => ret (getName t')
  | None => panic nilDeref
  end.

Definition getProperty_ (t : Type_) : M (option Schema) :=
  match t with
  | Some t' => getProperty t'
  | None => panic nilDeref
  end.

Definition setDefinitions (doc : Swagger) (d : gmap string Schema) : Swagger :=
  {| SwaggerVersion := SwaggerVersion doc; Definitions := d;
     Paths := Paths doc |}.

Definition setPaths (doc : Swagger) (p : gmap string PathItem) : Swagger :=
  {| SwaggerVersion := SwaggerVersion doc; Definitions := Definitions doc;
     Paths := p |}.

(** [addDefinition]: the map behind [doc.Definitions] is shared with the
    caller, so the updated document is returned. *)
Definition addDefinition (doc : Swagger) (t : Type_) : M Swagger :=
  let* name := getName_ t in
  match Definitions doc !! name with
  | Some _ => ret doc
  | None =>
      let* prop := getProperty_ t in
      match prop with
      | Some p => ret (setDefinitions doc (<[name := p]> (Definitions doc)))
      | None => ret doc
      end
  end.

(** One entry of [chi.Walk]: method, route pattern and handler. *)
Record Route : Type := mkRoute
  { method : string; route : string; handler : ghttp.Handler }.

(** The body-type half of the callback. *)
Definition withPayload (doc : Swagger) (operation : Operation)
    (handler : ghttp.Handler) : M (Swagger * Operation) :=
  match ghttp.PayloadTyper handler with
  | Some pt =>
      let* doc' := addDefinition doc pt in
      let* name := getName_ pt in
      let parameter := BodyParam name (RefProperty ("#/definitions/" ++ name)%string) in
      ret (doc', AddParam operation parameter)
  | None => ret (doc, operation)
  end.

(** The response-type half of the callback. *)
Definition withResponse (doc : Swagger) (operation : Operation)
    (handler : ghttp.Handler) : M (Swagger * Operation) :=
  match ghttp.ResponseTyper handler with
  | Some rt =>
      let* doc' := addDefinition doc rt in
      let* name := getName_ rt in
      let resp := {| RespSchema := Some (RefProperty ("#/definitions/" ++ name)%string) |} in
      ret (doc', RespondsWith operation http.StatusOK resp)
  | None => ret (doc, operation)
  end.

(** The loop over the matches of [pathParamPattern]. *)
Definition withPathParams (operation : Operation) (route : string)
  : Operation :=
  fold_left (fun op pathParam => AddParam op (PathParam (snd pathParam)))
            (regexp.FindAllStringSubmatch route) operation.

(** The [switch method]: the operation goes into the slot of the method;
    there is no default case. *)
Definition assign (pathItem : PathItem) (method : string)
    (operation : Operation) : PathItem :=
  let op := Some operation in
  if String.eqb method http.MethodGet then
    mkPathItem op (Put pathItem) (Post pathItem) (Delete pathItem)
               (Options pathItem) (Head pathItem) (Patch pathItem)
  else if String.eqb method http.MethodPut then
    mkPathItem (Get pathItem) op (Post pathItem) (Delete pathItem)
               (Options pathItem) (Head pathItem) (Patch pathItem)
  else if String.eqb method http.MethodPost then
    mkPathItem (Get pathItem) (Put pathItem) op (Delete pathItem)
               (Options pathItem) (Head pathItem) (Patch pathItem)
  else if String.eqb method http.MethodDelete then
    mkPathItem (Get pathItem) (Put pathItem) (Post pathItem) op
               (Options pathItem) (Head pathItem) (Patch pathItem)
  else if String.eqb method http.MethodOptions then
    mkPathItem (Get pathItem) (Put pathItem) (Post pathItem) (Delete pathItem)
               op (Head pathItem) (Patch pathItem)
  else if String.eqb method http.MethodHead then
    mkPathItem (Get pathItem) (Put pathItem) (Post pathItem) (Delete pathItem)
               (Options pathItem) op (Patch pathItem)
  else if String.eqb method http.MethodPatch then
    mkPathItem (Get pathItem) (Put pathItem) (Post pathItem) (Delete pathItem)
               (Options pathItem) (Head pathItem) op
  else pathItem.

(** The operation the callback assembles for a route, with the document
    after the definitions of its handler were added. *)
Definition buildOperation (doc : Swagger) (route : string)
    (handler : ghttp.Handler) : M (Swagger * Operation) :=
  let operation := NewOperation "" in
  let* (doc1, operation1) := withPayload doc operation handler in
  let* (doc2, operation2) := withResponse doc1 operation1 handler in
  ret (doc2, withPathParams operation2 route).

(** The callback handed to [chi.Walk]. *)
Definition walkFn (doc : Swagger) (r : Route) : M Swagger :=
  let doc0 :=
    match Paths doc !! route r with
    | Some _ => doc
    | None => setPaths doc (<[route r := emptyPathItem]> (Paths doc))
    end in
  let* (doc2, operation) := buildOperation doc0 (route r) (handler r) in
  let pathItem := default emptyPathItem (Paths doc2 !! route r) in
  let pathItem' := assign pathItem (method r) operation in
  ret (setPaths doc2 (<[route r := pathItem']> (Paths doc2))).

(** [chi.Walk] over the routes of the router, in the order it visits
    them; the callback never returns an error. *)
Fixpoint Walk (routes : list Route) (doc : Swagger) : M Swagger :=
  match routes with
  | [] => ret doc
  | r :: rest => let* doc' := walkFn doc r in Walk rest doc'
  end.

Definition newDoc : Swagger :=
  {| SwaggerVersion := "2.0"; Definitions := ∅; Paths := ∅ |}.

(** [initializeDoc], on the routes [chi.Walk] yields for the router. *)
Definition initializeDoc (routes : list Route) : M Swagger :=
  Walk routes newDoc.

(** ** Vocabulary of the statements *)

(** The two names [getProperty] treats before looking at the kind. *)
Definition specialName (t : rtype) : bool :=
  String.eqb (String_ t) "uuid.UUID" || String.eqb (String_ t) "date.DateString".

(** The leaf kinds [getProperty] has no case for. *)
Definition unsupportedLeaf (k : LeafKind) : bool :=
  match k with
  | KInvalid | KUintptr | KComplex64 | KComplex128
  | KChan | KFunc | KInterface | KMap | KUnsafePointer => true
  | _ => false
  end.

(** A field that ends up in the object schema: its conversion returns a
    schema. *)
Definition fieldSchema (f : StructField rtype) : option Schema :=
  match snd (getProperty (FieldType f)) with
  | Returned (Some p) => Some p
  | _ => None
  end.

Definition supportedField (f : StructField rtype) : bool :=
  bool_decide (is_Some (fieldSchema f)).

(** The entries the field loop stores, in declaration order. *)
Definition fieldEntries (fs : list (StructField rtype))
  : list (string * Schema) :=
  omap (fun f => match fieldSchema f with
                 | Some p => Some (fieldKey f, p)
                 | None => None
                 end) fs.

(** A schema without any reference in it, at any depth. *)
Inductive RefFree : Schema -> Prop :=
| RefFree_intro ty fmt nullable items props :
    (forall i, items = Some i -> RefFree i) ->
    (forall k p, props !! k = Some p -> RefFree p) ->
    RefFree (mkSchema ty fmt nullable items props "").

(** The methods the [switch] of the callback has a case for. *)
Definition knownMethods : list string :=
  [http.MethodGet; http.MethodPut; http.MethodPost; http.MethodDelete;
   http.MethodOptions; http.MethodHead; http.MethodPatch].

(** A route pattern written as the text between placeholders and the
    placeholders themselves. *)
Inductive Segment : Type :=
| Lit (text : string)
| Hole (name : string).

Fixpoint render (segs : list Segment) : string :=
  match segs with
  | [] => EmptyString
  | Lit text :: rest => text ++ render rest
  | Hole name :: rest => "{" ++ name ++ "}" ++ render rest
  end.

Fixpoint holes (segs : list Segment) : list string :=
  match segs with
  | [] => []
  | Lit _ :: rest => holes rest
  | Hole name :: rest => name :: holes rest
  end.

Fixpoint occurs (c : ascii) (s : string) : bool :=
  match s with
  | EmptyString => false
  | String.String d rest => Ascii.eqb d c || occurs c rest
  end.

(** Text between placeholders opens no brace; a placeholder's content is
    not empty and closes no brace. *)
Definition wellFormed (seg : Segment) : bool :=
  match seg with
  | Lit text => negb (occurs "{" text)
  | Hole name => negb (String.eqb name "") && negb (occurs "}" name)
  end.

Definition isPathParam (p : Param) : bool := String.eqb (In p) "path".

(** The observations on a served request. *)
Section Observations.
Context {I O V Request Err : Type}.
Local Abbreviation Event := (ghttp.Event I O V Request Err).

Definition handlerCalls (tr : list Event) : list (Request * I) :=
  omap (fun e => match e with
                 | ghttp.CalledHandlerFunc _ _ _ _ _ r p => Some (r, p)
                 | _ => None
                 end) tr.


Definition statusWritten (tr : list Event) : list Z :=
  omap (fun e => match e with
                 | ghttp.WroteHeader _ _ _ _ _ c => Some c
                 | _ => None
                 end) tr.

Definition bodiesEncoded (tr : list Event) : list (ghttp.any O V) :=
  omap (fun e => match e with
                 | ghttp.Encoded _ _ _ _ _ v => Some v
                 | _ => None
                 end) tr.
End Observations.

(** ** Further definitions used by the statements *)

(** One assignment of the field loop. *)
Definition store (props : gmap string Schema) (e : string * Schema)
  : gmap string Schema := <[e.1 := e.2]> props.

Definition tString : rtype := TLeaf KString "string" "string".
Definition tInt : rtype := TLeaf KInt "int" "int".
Definition tMapStringInt : rtype := TLeaf KMap "" "map[string]int".

(** [struct { A string; B string }]: two fields without a json tag. *)
Definition untaggedPair : list (StructField rtype) :=
  [mkField "A" "" tString; mkField "B" "" tString].

(** [struct { ID string `json:"id"`; Count int `json:"count,omitempty"`;
    Extra map[string]int `json:"extra"` }] *)
Definition widgetFields : list (StructField rtype) :=
  [mkField "ID" "id" tString;
   mkField "Count" "count,omitempty" tInt;
   mkField "Extra" "extra" tMapStringInt].

(** The types a handler declares through its capabilities. *)
Definition declaredTypes (h : ghttp.Handler) : list rtype :=
  match ghttp.PayloadTyper h with Some (Some t) => [t] | _ => [] end ++
  match ghttp.ResponseTyper h with Some (Some t) => [t] | _ => [] end.

(** How the table may change while the types [ts] are registered: an
    entry, once there, stays as it is, and a new entry is the schema
    [getProperty] returned for one of [ts], under that type's name. *)
Definition grows (ts : list rtype) (d d' : gmap string Schema) : Prop :=
  (forall name s, d !! name = Some s -> d' !! name = Some s) /\
  (forall name s, d' !! name = Some s ->
     d !! name = Some s \/
     exists t, t ∈ ts /\ getName t = name /\
               snd (getProperty t) = Returned (Some s)).

(** The document the callback looks the path item up in. *)
Definition ensured (doc : Swagger) (pat : string) : Swagger :=
  match Paths doc !! pat with
  | Some _ => doc
  | None => setPaths doc (<[pat := emptyPathItem]> (Paths doc))
  end.

Definition tInner : rtype :=
  TStruct "Inner" "main.Inner" [mkField "Name" "name" tString].
Definition tA : rtype :=
  TStruct "A" "main.A" [mkField "Inner" "inner" tInner].
Definition tB : rtype :=
  TStruct "B" "main.B" [mkField "Inner" "inner" tInner; mkField "N" "n" tInt].

(** Two routes whose response types both have a field of type [Inner]. *)
Definition routesAB : list Route :=
  [mkRoute "GET" "/a" (ghttp.NewJSONHandler tA);
   mkRoute "GET" "/b" (ghttp.NewJSONHandler tB)].

(** What [Inner] looks like written out. *)
Definition innerInline : Schema :=
  objectSchema (<["name" := StringProperty]> ∅).

(** The property [key] of the entry [owner] is a reference to the entry
    [nested] of the table. *)
Definition resolvedThroughTable (doc : Swagger) (owner key nested : string)
  : Prop :=
  exists s p,
    Definitions doc !! owner = Some s /\ Properties s !! key = Some p /\
    Ref p = ("#/definitions/" ++ nested)%string /\
    is_Some (Definitions doc !! nested).

(** A route with the method TRACE, on a handler without capabilities. *)
Definition traceRoute : Route :=
  mkRoute "TRACE" "/debug/{id}" (ghttp.Foreign None None).

(** A router whose only route for [/debug/{id}] has the method TRACE, next
    to a GET route for another pattern. *)
Definition routesWithTrace : list Route :=
  [traceRoute; mkRoute "GET" "/widgets/{id}" (ghttp.Foreign None None)].

(** The path parameter the claim describes: typed as a string. *)
Definition stringPathParam (name : string) : Param :=
  {| ParamName := name; In := "path"; Required := true;
     ParamType := "string"; ParamSchema := None |}.

(** The path parameters of the operation built for a pattern, on a
    handler without capabilities. *)
Definition pathParamsOf (pat : string) : list Param :=
  match snd (buildOperation newDoc pat (ghttp.Foreign None None)) with
  | Returned (_, op) => List.filter isPathParam (OpParameters op)
  | Panicked _ => []
  end.

(** A descriptor with no pointer type anywhere in it. *)
Fixpoint pointerFree (t : rtype) : bool :=
  match t with
  | TLeaf _ _ _ => true
  | TArray _ _ _ elem => pointerFree elem
  | TPointer _ _ _ => false
  | TSlice _ _ elem => pointerFree elem
  | TStruct _ _ fields => forallb (fun f => pointerFree (FieldType f)) fields
  end.

(** A handler whose capabilities, if any, return a non-nil type without
    pointers. *)
Definition plainHandler (h : ghttp.Handler) : bool :=
  match ghttp.PayloadTyper h with
  | Some (Some t) => pointerFree t
  | Some None => false
  | None => true
  end &&
  match ghttp.ResponseTyper h with
  | Some (Some t) => pointerFree t
  | Some None => false
  | None => true
  end.

(** ** Induction over type descriptors *)

Section rtype_induction.
Variable P : rtype -> Prop.
Hypothesis HLeaf : forall k name str, P (TLeaf k name str).
Hypothesis HArray :
  forall name str len elem, P elem -> P (TArray name str len elem).
Hypothesis HPointer :
  forall name str elem, P elem -> P (TPointer name str elem).
Hypothesis HSlice :
  forall name str elem, P elem -> P (TSlice name str elem).
Hypothesis HStruct :
  forall name str fields,
    Forall (fun f => P (FieldType f)) fields -> P (TStruct name str fields).

Fixpoint rtype_nested_ind (t : rtype) : P t :=
  match t with
  | TLeaf k name str => HLeaf k name str
  | TArray name str len elem =>
      HArray name str len elem (rtype_nested_ind elem)
  | TPointer name str elem => HPointer name str elem (rtype_nested_ind elem)
  | TSlice name str elem => HSlice name str elem (rtype_nested_ind elem)
  | TStruct name str fields =>
      HStruct name str fields
        ((fix go (fs : list (StructField rtype))
            : Forall (fun f => P (FieldType f)) fs :=
            match fs with
            | [] => List.Forall_nil _
            | f :: rest =>
                List.Forall_cons _ f rest (rtype_nested_ind (FieldType f)) (go rest)
            end) fields)
  end.
End rtype_induction.

(** ** Definitions for the further properties *)

(** [getProperty] hands back nil: a leaf of a kind without a case, not
    bearing a special name. *)
Definition nilSchema (t : rtype) : bool :=
  negb (specialName t) &&
  match t with
  | TLeaf k _ _ => unsupportedLeaf k
  | _ => false
  end.

(** Somewhere [getProperty] gets to, a pointer type has a pointee with a
    nil schema. *)
Fixpoint nilPointee (t : rtype) : bool :=
  negb (specialName t) &&
  match t with
  | TLeaf _ _ _ => false
  | TArray _ _ _ elem => nilPointee elem
  | TPointer _ _ elem => nilPointee elem || nilSchema elem
  | TSlice _ _ elem => nilPointee elem
  | TStruct _ _ fields => existsb (fun f => nilPointee (FieldType f)) fields
  end.

(** A line of the log that is the diagnostic for a type without schema. *)
Definition isDiagnostic (line : string) : Prop :=
  exists t, nilSchema t = true /\ line = unknownKindLine t.

(** Name and location, which [AddParam] compares. *)
Definition paramKey (p : Param) : string * string := (ParamName p, In p).

(** The seven slots of a path item. *)
Inductive Slot : Type :=
| SGet | SPut | SPost | SDelete | SOptions | SHead | SPatch.

(** The slot the [switch] of the callback picks for a method. *)
Definition slotOf (m : string) : option Slot :=
  if String.eqb m http.MethodGet then Some SGet
  else if String.eqb m http.MethodPut then Some SPut
  else if String.eqb m http.MethodPost then Some SPost
  else if String.eqb m http.MethodDelete then Some SDelete
  else if String.eqb m http.MethodOptions then Some SOptions
  else if String.eqb m http.MethodHead then Some SHead
  else if String.eqb m http.MethodPatch then Some SPatch
  else None.

Definition getSlot (s : Slot) (pathItem : PathItem) : option Operation :=
  match s with
  | SGet => Get pathItem | SPut => Put pathItem | SPost => Post pathItem
  | SDelete => Delete pathItem | SOptions => Options pathItem
  | SHead => Head pathItem | SPatch => Patch pathItem
  end.

(** The operation a document holds for a pattern and a method. *)
Definition operationAt (doc : Swagger) (pat m : string) : option Operation :=
  match slotOf m, Paths doc !! pat with
  | Some s, Some pathItem => getSlot s pathItem
  | _, _ => None
  end.

Definition refTo (t : rtype) : Schema :=
  RefProperty ("#/definitions/" ++ getName t)%string.

(** What the callback makes of a route when nothing panics, written
    without the document. *)
Definition operationFor (pat : string) (h : ghttp.Handler) : Operation :=
  let op0 := NewOperation "" in
  let op1 :=
    match ghttp.PayloadTyper h with
    | Some (Some pt) => AddParam op0 (BodyParam (getName pt) (refTo pt))
    | _ => op0
    end in
  let op2 :=
    match ghttp.ResponseTyper h with
    | Some (Some rt) =>
        RespondsWith op1 http.StatusOK {| RespSchema := Some (refTo rt) |}
    | _ => op1
    end in
  withPathParams op2 pat.

(** The last of the routes with the given pattern and method. *)
Fixpoint lastRoute (routes : list Route) (pat m : string) : option Route :=
  match routes with
  | [] => None
  | r :: rest =>
      match lastRoute rest pat m with
      | Some r' => Some r'
      | None =>
          if String.eqb (route r) pat && String.eqb (method r) m
          then Some r else None
      end
  end.

(** The method of a slot. *)
Definition methodOf (s : Slot) : string :=
  match s with
  | SGet => http.MethodGet | SPut => http.MethodPut
  | SPost => http.MethodPost | SDelete => http.MethodDelete
  | SOptions => http.MethodOptions | SHead => http.MethodHead
  | SPatch => http.MethodPatch
  end.

(** Two GET routes and a PUT route for one pattern, and a TRACE route. *)
Definition routesSamePattern : list Route :=
  [mkRoute "GET" "/w/{id}" (ghttp.NewJSONHandler tA);
   mkRoute "PUT" "/w/{id}" (ghttp.Foreign None None);
   mkRoute "GET" "/w/{id}" (ghttp.NewJSONHandler tB);
   mkRoute "TRACE" "/w/{id}" (ghttp.NewJSONHandler tA)].

(** Two handlers whose response types are both named [A]. *)
Definition tOtherA : rtype :=
  TStruct "A" "other.A" [mkField "N" "n" tInt].

(** The empty interface type. *)
Definition tAny : rtype := TLeaf KInterface "" "interface {}".

(** *** A handler over numbers, for the examples *)

(** The body "7" decodes to 7, any other body fails to decode. *)
Definition sampleDecode (body : string) : string + nat :=
  if String.eqb body "7" then inr 7 else inl "invalid character".

(** Encoding that never fails. *)
Definition sampleEncode (resp : ghttp.any nat unit) : option string := None.

(** A callback that returns the decoded number with a given status. *)
Definition echoCallback (statusCode : Z) (r : string) (payload : nat)
  : nat * Z := (payload, statusCode).

(** *** [HandlerFunc], one request after the other *)

(** The cell behind [sync.OnceValue]: empty, or how the one call of the
    function ended.  A panic of that call is raised again on every later
    call. *)
Definition Once : Type := option (Outcome Swagger).

(** [onceFn()], with the routes the router holds at the time of the call. *)
Definition onceFn (routes : list Route) (cell : Once) : M Swagger * Once :=
  match cell with
  | Some (Returned doc) => (ret doc, cell)
  | Some (Panicked msg) => (panic msg, cell)
  | None => let m := initializeDoc routes in (m, Some (snd m))
  end.

(** What the closure does to the [http.ResponseWriter] and to standard
    output. *)
Inductive DocEvent : Type :=
| DocHeaderSet (key value : string)
| DocWroteHeader (statusCode : Z)
| DocEncoded (doc : Swagger)
| DocPrinted (text : string).

(** The closure [HandlerFunc] returns, serving one request.  [encodeDoc]
    is [enc.Encode(doc)] on the [http.ResponseWriter] of that request: the
    text of the error when writing to it fails, which one request may meet
    and the next not. *)
Definition HandlerFunc (encodeDoc : Swagger -> option string)
    (routes : list Route) (cell : Once) : M (list DocEvent) * Once :=
  let '(m, cell') := onceFn routes cell in
  (let* doc := m in
   ret ([DocHeaderSet "Content-Type" "application/json";
         DocWroteHeader http.StatusOK;
         DocEncoded doc]
        ++ match encodeDoc doc with
           | Some err => [DocPrinted ("Error encoding doc: " ++ err ++ newline)]
           | None => []
           end),
   cell').

(** * Properties *)

(** ** Computations *)

Section RunFacts.
Context {A B : Type}.

Lemma bind_ret_l (a : A) (k : A -> M B) : bind (ret a) k = k a.
Proof. unfold bind, ret. by destruct (k a). Qed.

Lemma bind_Returned (m : M A) (k : A -> M B) l b :
  bind m k = (l, Returned b) ->
  exists l1 a l2, m = (l1, Returned a) /\ k a = (l2, Returned b) /\ l = l1 ++ l2.
Proof.
  destruct m as [l1 [a|msg]]; simpl; [|discriminate].
  destruct (k a) as [l2 o] eqn:Hk. intros [= <- ->]. by exists l1, a, l2.
Qed.

Lemma bind_eq_Returned (m : M A) (k : A -> M B) l1 a l2 b :
  m = (l1, Returned a) -> k a = (l2, Returned b) ->
  bind m k = (l1 ++ l2, Returned b).
Proof. intros -> Hk. simpl. by rewrite Hk. Qed.

Lemma bind_Panicked (m : M A) (k : A -> M B) l msg :
  m = (l, Panicked msg) -> bind m k = (l, Panicked msg).
Proof. by intros ->. Qed.

Lemma bind_ext (m : M A) (k1 k2 : A -> M B) :
  (forall a, k1 a = k2 a) -> bind m k1 = bind m k2.
Proof.
  intros H. destruct m as [l [a|msg]]; simpl; [|done]. by rewrite H.
Qed.

Lemma bind_log (m : M A) (k1 k2 : A -> M B) :
  (forall a, fst (k1 a) = fst (k2 a)) -> fst (bind m k1) = fst (bind m k2).
Proof.
  intros H. destruct m as [l [a|msg]]; simpl; [|done].
  specialize (H a). destruct (k1 a), (k2 a); simpl in *. by subst.
Qed.
End RunFacts.

(** ** Unfolding [getProperty] *)

Lemma specialName_false t :
  specialName t = false ->
  String.eqb (String_ t) "uuid.UUID" = false /\
  String.eqb (String_ t) "date.DateString" = false.
Proof. unfold specialName. by intros [??]%orb_false_elim. Qed.

Lemma getProperty_pointer name str elem :
  specialName (TPointer name str elem) = false ->
  getProperty (TPointer name str elem) =
    let* property := getProperty elem in
    match property with
    | Some p => ret (Some (set_Nullable p true))
    | None => panic nilDeref
    end.
Proof. intros [H1 H2]%specialName_false. simpl in *. by rewrite H1, H2. Qed.

Lemma getProperty_struct name str fields :
  specialName (TStruct name str fields) = false ->
  getProperty (TStruct name str fields) =
    let* props := fieldsLoop getProperty fields ∅ in
    ret (Some (objectSchema props)).
Proof. intros [H1 H2]%specialName_false. simpl in *. by rewrite H1, H2. Qed.

Lemma getProperty_unsupported_leaf k name str :
  specialName (TLeaf k name str) = false -> unsupportedLeaf k = true ->
  getProperty (TLeaf k name str) =
    ([unknownKindLine (TLeaf k name str)], Returned None).
Proof.
  intros [H1 H2]%specialName_false Hk. simpl in H1, H2.
  unfold getProperty. simpl String_. rewrite H1, H2.
  by destruct k.
Qed.

(** ** C1: a pointer to an unsupported type *)

(** C1 (the code departs from the claim).  For a pointer type whose pointee
    is of a kind [getProperty] has no case for, and neither type bears one
    of the two special names, [getProperty] logs the diagnostic for the
    pointee and then panics on the nil schema it got back: it does not
    return "no schema". *)
Theorem getProperty_pointer_to_unsupported_panics k name str pname pstr :
  unsupportedLeaf k = true ->
  specialName (TLeaf k name str) = false ->
  specialName (TPointer pname pstr (TLeaf k name str)) = false ->
  getProperty (TPointer pname pstr (TLeaf k name str)) =
    ([unknownKindLine (TLeaf k name str)], Panicked nilDeref).
Proof.
  intros Hk Hleaf Hptr.
  rewrite getProperty_pointer by done.
  by rewrite getProperty_unsupported_leaf.
Qed.

Lemma getProperty_pointer_to_unsupported_panics_witness :
  getProperty (TPointer "" "*map[string]int" (TLeaf KMap "" "map[string]int")) =
    ([unknownKindLine (TLeaf KMap "" "map[string]int")], Panicked nilDeref).
Proof.
  apply (getProperty_pointer_to_unsupported_panics
           KMap "" "map[string]int" "" "*map[string]int"); reflexivity.
Defined.

(** ** C2: the capabilities of the Input+Output handler *)

Lemma withPathParams_params_ID op pat :
  ID (withPathParams op pat) = ID op /\
  StatusCodeResponses (withPathParams op pat) = StatusCodeResponses op.
Proof.
  unfold withPathParams.
  generalize (regexp.FindAllStringSubmatch pat). intros ms.
  revert op. induction ms as [|m ms IH]; intros op; simpl; [done|].
  destruct (IH (AddParam op (PathParam m.2))) as [-> ->]. done.
Qed.

Lemma AddParam_path_only op name :
  Forall (fun p => In p = "path") (OpParameters op) ->
  Forall (fun p => In p = "path") (OpParameters (AddParam op (PathParam name))).
Proof.
  intros Hop. unfold AddParam; simpl.
  destruct (replace_param (OpParameters op) (PathParam name)) as [ps|] eqn:Hr.
  - revert ps Hr.
    induction Hop as [|p ps0 Hp Hps IHp]; intros ps Hr; simpl in *; [done|].
    destruct (same_slot p (PathParam name)).
    + injection Hr as <-. by constructor.
    + destruct (replace_param ps0 (PathParam name)) eqn:Hr'; [|done].
      injection Hr as <-. constructor; [done|]. by apply IHp.
  - apply Forall_app. split; [done|]. by constructor.
Qed.

Lemma withPathParams_path_only op pat :
  Forall (fun p => In p = "path") (OpParameters op) ->
  Forall (fun p => In p = "path") (OpParameters (withPathParams op pat)).
Proof.
  unfold withPathParams.
  generalize (regexp.FindAllStringSubmatch pat). intros ms. revert op.
  induction ms as [|m ms IH]; intros op Hop; simpl; [done|].
  by apply IH, AddParam_path_only.
Qed.

(** C2 (the code departs from the claim).  [PayloadType] and
    [ResponseType] are declared on [JSONPayloadHandlerFunc], and the value
    [NewJSONPayloadHandler] returns is a [JSONPayloadHandler], whose method
    set is [ServeHTTP] alone.  Both capability checks of the route walker
    fail on it, for every [I] and [O]: the operation of its route gets
    neither a body parameter nor a response, only the path parameters, and
    nothing is added to the definitions.  The Output-only handler does
    pass the response-type check.  The function type that has the two
    methods has no [ServeHTTP], so it is not a handler a route can hold. *)
Theorem NewJSONPayloadHandler_has_no_capability (tI tO : rtype) :
  ghttp.hasMethod ghttp.DJSONPayloadHandler ghttp.mPayloadType = false /\
  ghttp.hasMethod ghttp.DJSONPayloadHandler ghttp.mResponseType = false /\
  ghttp.PayloadTyper (ghttp.NewJSONPayloadHandler tI tO) = None /\
  ghttp.ResponseTyper (ghttp.NewJSONPayloadHandler tI tO) = None /\
  (forall doc pat,
     exists op,
       buildOperation doc pat (ghttp.NewJSONPayloadHandler tI tO) =
         ret (doc, op) /\
       StatusCodeResponses op = ∅ /\
       Forall (fun p => In p = "path") (OpParameters op)) /\
  ghttp.ResponseTyper (ghttp.NewJSONHandler tO) = Some (TypeOf_zero tO) /\
  ghttp.implementsHandler ghttp.DJSONPayloadHandler = true /\
  ghttp.implementsHandler ghttp.DJSONPayloadHandlerFunc = false.
Proof.
  repeat split; try reflexivity.
  intros doc pat. exists (withPathParams (NewOperation "") pat).
  split; [reflexivity|]. split.
  - by destruct (withPathParams_params_ID (NewOperation "") pat) as [_ ->].
  - apply withPathParams_path_only. constructor.
Qed.

(** ** The field loop *)

Lemma fieldsLoop_cons f rest props :
  fieldsLoop getProperty (f :: rest) props =
    let* property := getProperty (FieldType f) in
    fieldsLoop getProperty rest
      match property with
      | Some p => <[fieldKey f := p]> props
      | None => props
      end.
Proof. reflexivity. Qed.

(** When the conversion of every field returns, so does the loop, and it
    has stored the entries of the supported fields in declaration order. *)
Lemma fieldsLoop_returns fs props :
  Forall (fun f => returns (getProperty (FieldType f))) fs ->
  exists l,
    fieldsLoop getProperty fs props =
      (l, Returned (foldl store props (fieldEntries fs))).
Proof.
  intros Hfs. revert props.
  induction Hfs as [|f rest [o Ho] _ IH]; intros props.
  - by exists [].
  - rewrite fieldsLoop_cons.
    destruct (getProperty (FieldType f)) as [l1 out] eqn:Hg.
    simpl in Ho. subst out.
    unfold fieldEntries; simpl. unfold fieldSchema at 1. rewrite Hg; simpl.
    destruct o as [p|].
    + destruct (IH (<[fieldKey f := p]> props)) as [l2 Hl2].
      exists (l1 ++ l2). simpl. fold (fieldEntries rest). by rewrite Hl2.
    + destruct (IH props) as [l2 Hl2].
      exists (l1 ++ l2). simpl. fold (fieldEntries rest). by rewrite Hl2.
Qed.

(** Conversely the loop returns only when every field conversion did. *)
Lemma fieldsLoop_Returned fs props l props' :
  fieldsLoop getProperty fs props = (l, Returned props') ->
  Forall (fun f => returns (getProperty (FieldType f))) fs.
Proof.
  revert props l. induction fs as [|f rest IH]; intros props l H; [done|].
  rewrite fieldsLoop_cons in H.
  apply bind_Returned in H as (l1 & o & l2 & Hg & Hrest & _).
  constructor; [|by eapply IH].
  exists o. by rewrite Hg.
Qed.

Section StoreFacts.
Implicit Types (es : list (string * Schema)) (m : gmap string Schema).

Lemma foldl_store_notin es m k :
  k ∉ es.*1 -> foldl store m es !! k = m !! k.
Proof.
  revert m. induction es as [|[k' p'] es IH]; intros m Hk; simpl; [done|].
  rewrite fmap_cons, not_elem_of_cons in Hk. destruct Hk as [Hne Hk].
  rewrite IH by done. unfold store; simpl. by rewrite lookup_insert_ne.
Qed.

Lemma foldl_store_in es m k p :
  NoDup es.*1 -> (k, p) ∈ es -> foldl store m es !! k = Some p.
Proof.
  revert m. induction es as [|[k' p'] es IH]; intros m Hnd Hin; simpl.
  - by apply elem_of_nil in Hin.
  - rewrite fmap_cons in Hnd. apply NoDup_cons in Hnd as [Hk' Hnd].
    apply elem_of_cons in Hin as [[= -> ->]|Hin].
    + rewrite foldl_store_notin by done. unfold store; simpl.
      by rewrite lookup_insert_eq.
    + by apply IH.
Qed.

Lemma foldl_store_lookup es m k p :
  foldl store m es !! k = Some p -> (k, p) ∈ es \/ m !! k = Some p.
Proof.
  revert m. induction es as [|[k' p'] es IH]; intros m H; simpl in *.
  - by right.
  - apply IH in H as [H|H]; [left; by right|].
    unfold store in H; simpl in H.
    destruct (decide (k' = k)) as [->|Hne].
    + rewrite lookup_insert_eq in H. injection H as ->. left. by left.
    + rewrite lookup_insert_ne in H by done. by right.
Qed.

Lemma foldl_store_size es m :
  NoDup es.*1 -> (forall k, k ∈ es.*1 -> m !! k = None) ->
  size (foldl store m es) = size m + length es.
Proof.
  revert m. induction es as [|[k' p'] es IH]; intros m Hnd Hfresh; simpl.
  - lia.
  - rewrite fmap_cons in Hnd. apply NoDup_cons in Hnd as [Hk' Hnd].
    rewrite IH; [|done|].
    + unfold store; simpl. rewrite map_size_insert_None; [lia|].
      apply Hfresh. rewrite fmap_cons. by left.
    + intros k Hk. unfold store; simpl. rewrite lookup_insert_ne.
      * apply Hfresh. rewrite fmap_cons. by right.
      * intros ->. done.
Qed.
End StoreFacts.

Lemma fieldEntries_elem fs k p :
  (k, p) ∈ fieldEntries fs <->
  exists f, f ∈ fs /\ fieldKey f = k /\ fieldSchema f = Some p.
Proof.
  unfold fieldEntries. rewrite list_elem_of_omap. split.
  - intros (f & Hf & He). exists f. split; [done|].
    destruct (fieldSchema f); [|done]. by injection He as <- <-.
  - intros (f & Hf & <- & Hs). exists f. split; [done|]. by rewrite Hs.
Qed.

Lemma supportedField_spec f :
  supportedField f = match fieldSchema f with Some _ => true | None => false end.
Proof.
  unfold supportedField. destruct (fieldSchema f) as [p|].
  - apply bool_decide_eq_true. by eexists.
  - apply bool_decide_eq_false. by intros [??].
Qed.

Lemma fieldEntries_cons f fs :
  fieldEntries (f :: fs) =
    match fieldSchema f with
    | Some p => (fieldKey f, p) :: fieldEntries fs
    | None => fieldEntries fs
    end.
Proof. unfold fieldEntries; simpl. by destruct (fieldSchema f). Qed.

Lemma fieldEntries_length fs :
  length (fieldEntries fs) = length (List.filter supportedField fs).
Proof.
  induction fs as [|f fs IH]; [done|].
  rewrite fieldEntries_cons. simpl List.filter.
  rewrite supportedField_spec.
  destruct (fieldSchema f) as [p|]; simpl; by rewrite IH.
Qed.

(** ** C4: the properties of a struct schema *)

(** The key is the part of the tag before its first comma. *)
Lemma Split_first_comma (s : string) :
  exists rest,
    s = (gostrings.Split_first s "," ++ rest)%string /\
    occurs "," (gostrings.Split_first s ",") = false /\
    (rest = EmptyString \/ exists r, rest = String.String "," r).
Proof.
  induction s as [|c s (rest & Hs & Hno & Hrest)]; simpl.
  - exists EmptyString. auto.
  - destruct (Ascii.eqb c ",") eqn:Hc.
    + apply Ascii.eqb_eq in Hc as ->. exists (String.String "," s).
      simpl. eauto.
    + exists rest. simpl. rewrite Hc, Hno. split; [|auto].
      by rewrite Hs at 1.
Qed.

(** C4 as stated fails: both fields of [untaggedPair] are supported and
    both get the empty key, so the object schema has one property for two
    supported fields. *)
Lemma untagged_fields_share_one_property :
  exists props,
    getProperty (TStruct "Pair" "main.Pair" untaggedPair) =
      ([], Returned (Some (objectSchema props))) /\
    length (List.filter supportedField untaggedPair) = 2 /\
    size props = 1 /\
    size props <> length (List.filter supportedField untaggedPair).
Proof.
  exists (<["" := StringProperty]> ∅).
  split; [by vm_compute|]. split; [by vm_compute|]. split; by vm_compute.
Qed.

(** The two other conditions of the statement below are needed as well: a
    struct type bearing a special name is converted by name, and a field
    of pointer-to-map type makes the conversion of the struct panic. *)
Example special_named_struct_is_a_date :
  getProperty (TStruct "DateString" "date.DateString" widgetFields) =
    ([], Returned (Some DateProperty)).
Proof. reflexivity. Qed.

Example struct_with_pointer_to_map_field_panics :
  snd (getProperty
         (TStruct "P" "main.P"
            [mkField "M" "m" (TPointer "" "*map[string]int" tMapStringInt)])) =
    Panicked nilDeref.
Proof. reflexivity. Qed.

(** C4 (amended).  For every struct type that does not bear one of the two
    special names, whose field conversions all return and whose supported
    fields have pairwise distinct keys, [getProperty] returns an object
    schema with exactly one property per supported field: the properties
    are exactly the pairs of a supported field's key and that field's
    schema, fields converted to "no schema" contribute nothing, and the
    key is the part of the json tag before its first comma (the empty
    string for an empty tag). *)
Theorem struct_schema_one_property_per_supported_field name str fields :
  specialName (TStruct name str fields) = false ->
  Forall (fun f => returns (getProperty (FieldType f))) fields ->
  NoDup (fieldEntries fields).*1 ->
  exists l props,
    getProperty (TStruct name str fields) =
      (l, Returned (Some (objectSchema props))) /\
    size props = length (List.filter supportedField fields) /\
    (forall k p,
       props !! k = Some p <->
       exists f, f ∈ fields /\ fieldKey f = k /\ fieldSchema f = Some p) /\
    (forall f, f ∈ fields ->
       (jsonTag f = EmptyString -> fieldKey f = EmptyString) /\
       exists rest,
         jsonTag f = (fieldKey f ++ rest)%string /\
         occurs "," (fieldKey f) = false /\
         (rest = EmptyString \/ exists r, rest = String.String "," r)).
Proof.
  intros Hspecial Hret Hnd.
  destruct (fieldsLoop_returns fields ∅ Hret) as [l Hl].
  exists l, (foldl store ∅ (fieldEntries fields)).
  split; [|split; [|split]].
  - rewrite getProperty_struct by done. rewrite Hl. simpl.
    by rewrite app_nil_r.
  - rewrite foldl_store_size; [|done|intros; apply lookup_empty].
    rewrite map_size_empty. simpl. apply fieldEntries_length.
  - intros k p. rewrite <- fieldEntries_elem. split.
    + intros [H|H]%foldl_store_lookup; [done|]. by rewrite lookup_empty in H.
    + by apply foldl_store_in.
  - intros f _. split.
    + unfold fieldKey. by intros ->.
    + apply Split_first_comma.
Qed.

Lemma struct_schema_one_property_per_supported_field_witness :
  exists l props,
    getProperty (TStruct "Widget" "main.Widget" widgetFields) =
      (l, Returned (Some (objectSchema props))) /\
    size props = length (List.filter supportedField widgetFields) /\
    (forall k p,
       props !! k = Some p <->
       exists f, f ∈ widgetFields /\ fieldKey f = k /\ fieldSchema f = Some p) /\
    (forall f, f ∈ widgetFields ->
       (jsonTag f = EmptyString -> fieldKey f = EmptyString) /\
       exists rest,
         jsonTag f = (fieldKey f ++ rest)%string /\
         occurs "," (fieldKey f) = false /\
         (rest = EmptyString \/ exists r, rest = String.String "," r)).
Proof.
  apply (struct_schema_one_property_per_supported_field
           "Widget" "main.Widget" widgetFields).
  - reflexivity.
  - repeat constructor; eexists; vm_compute; reflexivity.
  - change ((fieldEntries widgetFields).*1) with ["id"; "count"].
    apply NoDup_cons. split; [|apply NoDup_singleton].
    intros H%list_elem_of_singleton. discriminate H.
Defined.

(** ** Schemas are built without references *)

Lemma RefFree_typed ty fmt : RefFree (typed ty fmt).
Proof. constructor; [done|]. intros k p H. by rewrite lookup_empty in H. Qed.

Lemma RefFree_ArrayProperty items :
  (forall i, items = Some i -> RefFree i) -> RefFree (ArrayProperty items).
Proof. intros H. constructor; [done|]. intros k p Hk. by rewrite lookup_empty in Hk. Qed.

Lemma RefFree_set_Nullable s b : RefFree s -> RefFree (set_Nullable s b).
Proof. intros [ty fmt n items props Hi Hp]. simpl. by constructor. Qed.

Lemma RefFree_objectSchema props :
  (forall k p, props !! k = Some p -> RefFree p) -> RefFree (objectSchema props).
Proof. intros H. by constructor. Qed.

Lemma getProperty_special t :
  specialName t = true ->
  getProperty t = ret (Some (StrFmtProperty "uuid")) \/
  getProperty t = ret (Some DateProperty).
Proof.
  unfold specialName. intros H.
  destruct (String.eqb (String_ t) "uuid.UUID") eqn:H1.
  - left. destruct t; simpl in *; by rewrite H1.
  - right. simpl in H. destruct t; simpl in *; by rewrite H1, H.
Qed.

Lemma fieldsLoop_RefFree fs :
  Forall (fun f => forall l s,
            getProperty (FieldType f) = (l, Returned (Some s)) -> RefFree s) fs ->
  forall props l props',
    (forall k p, props !! k = Some p -> RefFree p) ->
    fieldsLoop getProperty fs props = (l, Returned props') ->
    forall k p, props' !! k = Some p -> RefFree p.
Proof.
  induction 1 as [|f rest Hf _ IH]; intros props l props' Hprops Hloop.
  - injection Hloop as _ <-. done.
  - rewrite fieldsLoop_cons in Hloop.
    apply bind_Returned in Hloop as (l1 & o & l2 & Hg & Hrest & _).
    eapply IH; [|exact Hrest].
    destruct o as [q|]; [|done].
    intros k p. destruct (decide (fieldKey f = k)) as [<-|Hne].
    + rewrite lookup_insert_eq. intros [= <-]. by eapply Hf.
    + rewrite lookup_insert_ne by done. apply Hprops.
Qed.

(** Whatever [getProperty] returns holds no reference: a nested type is
    written out where it is used. *)
Lemma getProperty_RefFree t :
  forall l s, getProperty t = (l, Returned (Some s)) -> RefFree s.
Proof.
  induction t as [k name str|name str len elem IH|name str elem IH
                 |name str elem IH|name str fields IH] using rtype_nested_ind;
    intros l s H.
  all: match goal with
       | H : getProperty ?t = _ |- _ =>
           destruct (specialName t) eqn:Hsp;
           [destruct (getProperty_special t Hsp) as [Hs|Hs];
            rewrite Hs in H; injection H as _ <-; apply RefFree_typed|]
       end.
  - apply specialName_false in Hsp as [H1 H2]. simpl in H1, H2.
    unfold getProperty in H. simpl String_ in H. rewrite H1, H2 in H.
    destruct k; simpl in H; try discriminate;
      injection H as _ <-; apply RefFree_typed.
  - apply specialName_false in Hsp as [H1 H2]. simpl in H1, H2, H.
    rewrite H1, H2 in H.
    apply bind_Returned in H as (l1 & items & l2 & Hg & Hr & _).
    injection Hr as _ <-. apply RefFree_ArrayProperty.
    intros i ->. by eapply IH.
  - rewrite getProperty_pointer in H by done.
    apply bind_Returned in H as (l1 & property & l2 & Hg & Hr & _).
    destruct property as [p|]; [|discriminate].
    injection Hr as _ <-. apply RefFree_set_Nullable. by eapply IH.
  - apply specialName_false in Hsp as [H1 H2]. simpl in H1, H2, H.
    rewrite H1, H2 in H.
    apply bind_Returned in H as (l1 & items & l2 & Hg & Hr & _).
    injection Hr as _ <-. apply RefFree_ArrayProperty.
    intros i ->. by eapply IH.
  - rewrite getProperty_struct in H by done.
    apply bind_Returned in H as (l1 & props & l2 & Hg & Hr & _).
    injection Hr as _ <-. apply RefFree_objectSchema.
    eapply fieldsLoop_RefFree; [exact IH| |exact Hg].
    intros k p Hk. by rewrite lookup_empty in Hk.
Qed.

(** ** Where [getProperty] returns *)

(** The nil dereference needs a pointer type: on a descriptor without one,
    [getProperty] returns, with a schema or with nil. *)
Lemma getProperty_returns_without_pointer t :
  pointerFree t = true -> returns (getProperty t).
Proof.
  induction t as [k name str|name str len elem IH|name str elem IH
                 |name str elem IH|name str fields IH] using rtype_nested_ind;
    intros Hfree.
  all: match goal with
       | |- returns (getProperty ?t) =>
           destruct (specialName t) eqn:Hsp;
           [destruct (getProperty_special t Hsp) as [Hs|Hs];
            rewrite Hs; by eexists|]
       end.
  - apply specialName_false in Hsp as [H1 H2]. simpl in H1, H2.
    unfold getProperty. simpl String_. rewrite H1, H2.
    destruct k; by eexists.
  - apply specialName_false in Hsp as [H1 H2]. simpl in H1, H2.
    destruct (IH Hfree) as [items Hitems].
    simpl. rewrite H1, H2.
    destruct (getProperty elem) as [l o]. simpl in Hitems. subst o.
    by eexists.
  - discriminate Hfree.
  - apply specialName_false in Hsp as [H1 H2]. simpl in H1, H2.
    destruct (IH Hfree) as [items Hitems].
    simpl. rewrite H1, H2.
    destruct (getProperty elem) as [l o]. simpl in Hitems. subst o.
    by eexists.
  - rewrite getProperty_struct by done.
    assert (Hfs : Forall (fun f => returns (getProperty (FieldType f))) fields).
    { simpl in Hfree. rewrite forallb_forall in Hfree.
      apply Forall_forall. intros f Hf.
      rewrite Forall_forall in IH. apply IH; [done|].
      apply Hfree. by apply list_elem_of_In. }
    destruct (fieldsLoop_returns fields ∅ Hfs) as [l Hl].
    rewrite Hl. by eexists.
Qed.

(** ** The definitions table *)

Lemma grows_refl ts d : grows ts d d.
Proof. split; auto. Qed.

Lemma grows_trans ts1 ts2 d1 d2 d3 :
  grows ts1 d1 d2 -> grows ts2 d2 d3 -> grows (ts1 ++ ts2) d1 d3.
Proof.
  intros [Hk1 Hn1] [Hk2 Hn2]. split; [by auto|].
  intros name s [H|(t & Ht & Hname & Hs)]%Hn2.
  - apply Hn1 in H as [H|(t & Ht & Hname & Hs)]; [by left|].
    right. exists t. rewrite elem_of_app. auto.
  - right. exists t. rewrite elem_of_app. auto.
Qed.

Lemma addDefinition_present doc t :
  is_Some (Definitions doc !! getName t) -> addDefinition doc (Some t) = ret doc.
Proof. intros [s Hs]. unfold addDefinition. simpl. by rewrite Hs. Qed.

Lemma addDefinition_Returned doc t l doc' :
  addDefinition doc t = (l, Returned doc') ->
  exists t', t = Some t' /\
    Paths doc' = Paths doc /\ SwaggerVersion doc' = SwaggerVersion doc /\
    grows [t'] (Definitions doc) (Definitions doc').
Proof.
  destruct t as [t'|]; [|discriminate]. intros H. exists t'. split; [done|].
  unfold addDefinition in H. simpl in H.
  destruct (Definitions doc !! getName t') as [s0|] eqn:Hlook.
  - injection H as _ <-. repeat split; auto.
  - destruct (getProperty t') as [l1 [[p|]|msg]] eqn:Hg; simpl in H.
    + injection H as _ <-. simpl. repeat split.
      * intros name s Hs. rewrite lookup_insert_ne; [done|]. congruence.
      * intros name s. destruct (decide (getName t' = name)) as [<-|Hne].
        -- rewrite lookup_insert_eq. intros [= <-]. right. exists t'.
           rewrite Hg. split; [by left|done].
        -- rewrite lookup_insert_ne by done. by left.
    + injection H as _ <-. repeat split; auto.
    + discriminate.
Qed.

Lemma withPayload_Returned doc op h l doc' op' :
  withPayload doc op h = (l, Returned (doc', op')) ->
  Paths doc' = Paths doc /\
  grows (match ghttp.PayloadTyper h with Some (Some t) => [t] | _ => [] end)
        (Definitions doc) (Definitions doc') /\
  (op' = op \/ exists name schema, op' = AddParam op (BodyParam name schema)).
Proof.
  unfold withPayload. destruct (ghttp.PayloadTyper h) as [pt|].
  - intros H. apply bind_Returned in H as (l1 & doc1 & l2 & Hadd & H & _).
    apply addDefinition_Returned in Hadd as (t' & -> & HP & _ & Hgrow).
    simpl in H. injection H as _ <- <-. eauto 6.
  - intros [= _ <- <-]. split; [done|]. split; [apply grows_refl|by left].
Qed.

Lemma withResponse_Returned doc op h l doc' op' :
  withResponse doc op h = (l, Returned (doc', op')) ->
  Paths doc' = Paths doc /\
  grows (match ghttp.ResponseTyper h with Some (Some t) => [t] | _ => [] end)
        (Definitions doc) (Definitions doc') /\
  OpParameters op' = OpParameters op.
Proof.
  unfold withResponse. destruct (ghttp.ResponseTyper h) as [rt|].
  - intros H. apply bind_Returned in H as (l1 & doc1 & l2 & Hadd & H & _).
    apply addDefinition_Returned in Hadd as (t' & -> & HP & _ & Hgrow).
    simpl in H. injection H as _ <- <-. eauto.
  - intros [= _ <- <-]. split; [done|]. split; [apply grows_refl|done].
Qed.

Lemma buildOperation_Returned doc pat h l doc' op :
  buildOperation doc pat h = (l, Returned (doc', op)) ->
  Paths doc' = Paths doc /\
  grows (declaredTypes h) (Definitions doc) (Definitions doc') /\
  exists op2,
    op = withPathParams op2 pat /\
    (OpParameters op2 = [] \/
     exists name schema, OpParameters op2 = [BodyParam name schema]).
Proof.
  unfold buildOperation. intros H.
  apply bind_Returned in H as (l1 & [doc1 op1] & l2 & Hp & H & _).
  apply bind_Returned in H as (l3 & [doc2 op2] & l4 & Hr & H & _).
  injection H as _ <- <-.
  apply withPayload_Returned in Hp as (HP1 & Hg1 & Hop1).
  apply withResponse_Returned in Hr as (HP2 & Hg2 & Hop2).
  split; [congruence|]. split; [by eapply grows_trans|].
  exists op2. split; [done|]. rewrite Hop2.
  destruct Hop1 as [->|(name & schema & ->)]; [by left|].
  right. by exists name, schema.
Qed.

(** ** One step of the walk *)

Lemma ensured_lookup doc pat :
  Paths (ensured doc pat) !! pat = Some (default emptyPathItem (Paths doc !! pat)).
Proof.
  unfold ensured. destruct (Paths doc !! pat) as [pi|] eqn:H; simpl; [done|].
  by rewrite lookup_insert_eq.
Qed.

Lemma ensured_lookup_ne doc pat p :
  p <> pat -> Paths (ensured doc pat) !! p = Paths doc !! p.
Proof.
  intros Hne. unfold ensured. destruct (Paths doc !! pat); simpl; [done|].
  by rewrite lookup_insert_ne.
Qed.

Lemma ensured_Definitions doc pat :
  Definitions (ensured doc pat) = Definitions doc.
Proof. unfold ensured. by destruct (Paths doc !! pat). Qed.

Lemma walkFn_unfold doc r :
  walkFn doc r =
    let* (doc2, operation) :=
      buildOperation (ensured doc (route r)) (route r) (handler r) in
    ret (setPaths doc2
           (<[route r := assign (default emptyPathItem (Paths doc2 !! route r))
                                (method r) operation]> (Paths doc2))).
Proof. reflexivity. Qed.

Lemma walkFn_Returned doc r l doc' :
  walkFn doc r = (l, Returned doc') ->
  exists doc2 op,
    buildOperation (ensured doc (route r)) (route r) (handler r) =
      (l, Returned (doc2, op)) /\
    Definitions doc' = Definitions doc2 /\
    grows (declaredTypes (handler r)) (Definitions doc) (Definitions doc') /\
    Paths doc' !! route r =
      Some (assign (default emptyPathItem (Paths doc !! route r)) (method r) op) /\
    (forall p, p <> route r -> Paths doc' !! p = Paths doc !! p).
Proof.
  rewrite walkFn_unfold. intros H.
  apply bind_Returned in H as (l1 & [doc2 op] & l2 & Hb & H & Hl).
  injection H as <- <-. rewrite app_nil_r in Hl. subst l1.
  exists doc2, op. split; [done|]. split; [done|].
  apply buildOperation_Returned in Hb as (HP & Hg & _).
  rewrite ensured_Definitions in Hg. simpl. rewrite HP.
  split; [done|]. split.
  - by rewrite lookup_insert_eq, ensured_lookup.
  - intros p Hne. rewrite lookup_insert_ne by done. by apply ensured_lookup_ne.
Qed.

Lemma assign_unknown pathItem m op :
  m ∉ knownMethods -> assign pathItem m op = pathItem.
Proof.
  intros Hm. unfold assign.
  repeat match goal with
         | |- context [String.eqb m ?k] =>
             destruct (String.eqb_spec m k) as [->|_];
             [exfalso; apply Hm; unfold knownMethods; set_solver|]
         end.
  done.
Qed.

Lemma Walk_cons r rest doc :
  Walk (r :: rest) doc = let* doc' := walkFn doc r in Walk rest doc'.
Proof. reflexivity. Qed.

(** The table after a walk: what was there stays, and what is new is the
    schema of a type some walked handler declares. *)
Lemma Walk_grows routes doc l doc' :
  Walk routes doc = (l, Returned doc') ->
  grows (concat (map (fun r => declaredTypes (handler r)) routes))
        (Definitions doc) (Definitions doc').
Proof.
  revert doc l. induction routes as [|r rest IH]; intros doc l H.
  - injection H as _ <-. apply grows_refl.
  - rewrite Walk_cons in H.
    apply bind_Returned in H as (l1 & doc1 & l2 & Hw & Hrest & _).
    apply walkFn_Returned in Hw as (_ & _ & _ & _ & Hg & _).
    simpl. eapply grows_trans; [exact Hg|]. by eapply IH.
Qed.

(** The paths after a walk.  For a pattern all of whose walked routes have
    a method outside the enumeration, the path item is the one from
    before the walk, or the empty one when the pattern is new; a pattern
    is a key afterwards exactly when it was one or is walked. *)
Lemma Walk_paths routes doc l doc' :
  Walk routes doc = (l, Returned doc') ->
  forall p,
    (is_Some (Paths doc' !! p) <->
     is_Some (Paths doc !! p) \/ exists r, r ∈ routes /\ route r = p) /\
    ((forall r, r ∈ routes -> route r = p -> method r ∉ knownMethods) ->
     default emptyPathItem (Paths doc' !! p) =
       default emptyPathItem (Paths doc !! p)).
Proof.
  revert doc l. induction routes as [|r rest IH]; intros doc l H p.
  - injection H as _ <-. split; [|done]. split; [by left|].
    intros [H|(r & Hr & _)]; [done|]. by apply elem_of_nil in Hr.
  - rewrite Walk_cons in H.
    apply bind_Returned in H as (l1 & doc1 & l2 & Hw & Hrest & _).
    apply walkFn_Returned in Hw as (_ & op & _ & _ & _ & Hat & Hother).
    destruct (IH _ _ Hrest p) as [Hdom Hitem].
    destruct (decide (p = route r)) as [->|Hne].
    + split.
      * rewrite Hdom, Hat. split; [|intros _; left; by eexists].
        intros _. right. exists r. split; [by left|done].
      * intros Hm. rewrite Hitem.
        -- rewrite Hat. simpl. apply assign_unknown. apply Hm; [by left|done].
        -- intros r' Hr'. apply Hm. by right.
    + rewrite (Hother p Hne) in Hdom, Hitem. split.
      * rewrite Hdom. split.
        -- intros [H|(r' & Hr' & Hp)]; [by left|]. right. exists r'.
           split; [by right|done].
        -- intros [H|(r' & Hr' & Hp)]; [by left|]. right. exists r'.
           split; [|done]. apply elem_of_cons in Hr' as [->|Hr']; [|done].
           by destruct Hne.
      * intros Hm. apply Hitem. intros r' Hr'. apply Hm. by right.
Qed.

Lemma elem_of_declared (routes : list Route) (t : rtype) :
  t ∈ concat (map (fun r => declaredTypes (handler r)) routes) ->
  exists r, r ∈ routes /\ t ∈ declaredTypes (handler r).
Proof.
  induction routes as [|r rest IH]; simpl.
  - intros H. by apply elem_of_nil in H.
  - rewrite elem_of_app. intros [H|H].
    + exists r. split; [by left|done].
    + destruct (IH H) as (r' & Hr' & Ht). exists r'. split; [by right|done].
Qed.

(** ** Where the build returns *)

Lemma addDefinition_returns doc t :
  returns (getProperty t) -> returns (addDefinition doc (Some t)).
Proof.
  intros [o Ho]. unfold addDefinition. simpl.
  destruct (Definitions doc !! getName t); [by eexists|].
  destruct (getProperty t) as [l out]. simpl in Ho. subst out.
  destruct o; by eexists.
Qed.

Lemma buildOperation_returns doc pat h :
  plainHandler h = true -> returns (buildOperation doc pat h).
Proof.
  unfold plainHandler, buildOperation, withPayload, withResponse.
  intros [Hp Hr]%andb_prop.
  destruct (ghttp.PayloadTyper h) as [[pt|]|]; [|done|].
  - destruct (addDefinition_returns doc pt
                (getProperty_returns_without_pointer pt Hp)) as [doc1 H1].
    destruct (addDefinition doc (Some pt)) as [l1 o1]. simpl in H1. subst o1.
    simpl. destruct (ghttp.ResponseTyper h) as [[rt|]|]; [|done|].
    + destruct (addDefinition_returns doc1 rt
                  (getProperty_returns_without_pointer rt Hr)) as [doc2 H2].
      destruct (addDefinition doc1 (Some rt)) as [l2 o2]. simpl in H2.
      subst o2. by eexists.
    + by eexists.
  - simpl. destruct (ghttp.ResponseTyper h) as [[rt|]|]; [|done|].
    + destruct (addDefinition_returns doc rt
                  (getProperty_returns_without_pointer rt Hr)) as [doc2 H2].
      destruct (addDefinition doc (Some rt)) as [l2 o2]. simpl in H2.
      subst o2. by eexists.
    + by eexists.
Qed.

(** Over handlers that declare nothing, or non-nil types without
    pointers, the build returns a document. *)
Lemma initializeDoc_returns routes :
  Forall (fun r => plainHandler (handler r) = true) routes ->
  returns (initializeDoc routes).
Proof.
  intros Hall. unfold initializeDoc. generalize newDoc.
  induction Hall as [|r rest Hr _ IH]; intros doc.
  - by eexists.
  - rewrite Walk_cons, walkFn_unfold.
    destruct (buildOperation_returns (ensured doc (route r)) (route r)
                (handler r) Hr) as [[doc2 op] Hb].
    destruct (buildOperation _ _ _) as [l1 o1]. simpl in Hb. subst o1.
    simpl. rewrite app_nil_r.
    match goal with
    | |- returns (let (l', o) := Walk rest ?d in _) =>
        destruct (IH d) as [doc' Hd]; destruct (Walk rest d) as [l2 o2]
    end.
    simpl in Hd. subst o2. by eexists.
Qed.

(** ** C3: the definitions table after a build *)

(** C3 as stated fails in its second half: [Inner] is a field of both
    registered types, and it is written out in full inside each of the
    two entries; the table has no entry for it and no property refers to
    one. *)
Lemma nested_struct_is_expanded_inline :
  exists doc,
    initializeDoc routesAB = ([], Returned doc) /\
    Definitions doc !! "Inner" = None /\
    (exists sA sB,
       Definitions doc !! "A" = Some sA /\ Definitions doc !! "B" = Some sB /\
       Properties sA !! "inner" = Some innerInline /\
       Properties sB !! "inner" = Some innerInline) /\
    Ref innerInline = "" /\
    ~ resolvedThroughTable doc "A" "inner" "Inner" /\
    ~ resolvedThroughTable doc "B" "inner" "Inner".
Proof.
  destruct (initializeDoc routesAB) as [l [doc|msg]] eqn:H;
    [|by vm_compute in H].
  assert (Hl : l = []) by (by vm_compute in H; injection H as <- _).
  assert (Hdoc : snd (initializeDoc routesAB) = Returned doc) by (by rewrite H).
  subst l. exists doc. split; [done|].
  assert (Hinner : Definitions doc !! "Inner" = None).
  { clear H. vm_compute in Hdoc. injection Hdoc as <-. by vm_compute. }
  split; [done|]. split.
  - clear H. vm_compute in Hdoc. injection Hdoc as <-.
    eexists _, _. repeat split; by vm_compute.
  - split; [done|]. split.
    + intros (s & p & _ & _ & _ & [x Hx]). congruence.
    + intros (s & p & _ & _ & _ & [x Hx]). congruence.
Qed.

(** C3 (amended).  After a build over any routes, the table has at most
    one entry per name; every entry is the schema [getProperty] returned
    for a type some walked handler declares, filed under that type's name,
    and it holds no reference at any depth: nested struct types are written
    out inline, not resolved through the table.  What the table saves is
    the rebuild of a declared type itself: registering a type whose name
    is present returns at once, document unchanged, nothing logged. *)
Theorem definitions_table_after_build routes l doc :
  initializeDoc routes = (l, Returned doc) ->
  NoDup (map_to_list (Definitions doc)).*1 /\
  (forall name s,
     Definitions doc !! name = Some s ->
     RefFree s /\
     exists r t, r ∈ routes /\ t ∈ declaredTypes (handler r) /\
                 getName t = name /\ snd (getProperty t) = Returned (Some s)) /\
  (forall t, is_Some (Definitions doc !! getName t) ->
             addDefinition doc (Some t) = ([], Returned doc)).
Proof.
  intros H. split; [apply NoDup_fst_map_to_list|]. split.
  - intros name s Hs.
    apply Walk_grows in H as [_ Hnew].
    destruct (Hnew name s Hs) as [Habs|(t & Ht & Hname & Hg)].
    { simpl in Habs. by rewrite lookup_empty in Habs. }
    split.
    + destruct (getProperty t) as [l' o] eqn:Hgp. simpl in Hg. subst o.
      by eapply getProperty_RefFree.
    + apply elem_of_declared in Ht as (r & Hr & Ht). by exists r, t.
  - intros t Ht. by apply addDefinition_present.
Qed.

Lemma definitions_table_after_build_witness :
  exists l doc,
    initializeDoc routesAB = (l, Returned doc) /\
    NoDup (map_to_list (Definitions doc)).*1 /\
    (forall name s,
       Definitions doc !! name = Some s ->
       RefFree s /\
       exists r t, r ∈ routesAB /\ t ∈ declaredTypes (handler r) /\
                   getName t = name /\ snd (getProperty t) = Returned (Some s)) /\
    (forall t, is_Some (Definitions doc !! getName t) ->
               addDefinition doc (Some t) = ([], Returned doc)).
Proof.
  destruct (initializeDoc routesAB) as [l [doc|msg]] eqn:H.
  - exists l, doc. split; [reflexivity|].
    exact (definitions_table_after_build routesAB l doc H).
  - vm_compute in H. discriminate H.
Defined.

(** ** C8: a method outside the enumeration *)

(** What the callback writes to the log does not depend on the method. *)
Lemma walkFn_log_any_method doc r m :
  fst (walkFn doc r) = fst (walkFn doc (mkRoute m (route r) (handler r))).
Proof.
  rewrite !walkFn_unfold. simpl route. simpl handler.
  apply bind_log. by intros [doc2 op].
Qed.

(** C8.  For a walked route whose method is none of GET, PUT, POST, DELETE,
    OPTIONS, HEAD and PATCH: whenever the callback returns, the operation
    was built, yet the path item of the pattern has the slots it had
    before (those of the empty path item when the pattern is new), and
    every other path is untouched, so the operation is in no slot.  The
    callback returns whenever building the operation does, and nothing is
    logged on account of the method: the log is the one the same route
    gives under any other method.  Which method outside the enumeration
    it is makes no difference to the result at all. *)
Theorem unrecognized_method_is_dropped doc r :
  method r ∉ knownMethods ->
  (forall l doc',
     walkFn doc r = (l, Returned doc') ->
     (exists doc2 op,
        buildOperation (ensured doc (route r)) (route r) (handler r) =
          (l, Returned (doc2, op))) /\
     Paths doc' !! route r =
       Some (default emptyPathItem (Paths doc !! route r)) /\
     (forall p, p <> route r -> Paths doc' !! p = Paths doc !! p)) /\
  (forall l doc2 op,
     buildOperation (ensured doc (route r)) (route r) (handler r) =
       (l, Returned (doc2, op)) ->
     exists doc', walkFn doc r = (l, Returned doc')) /\
  (forall m,
     fst (walkFn doc r) = fst (walkFn doc (mkRoute m (route r) (handler r)))) /\
  (forall m,
     m ∉ knownMethods ->
     walkFn doc (mkRoute m (route r) (handler r)) = walkFn doc r).
Proof.
  intros Hm. split; [|split; [|split]].
  - intros l doc' H.
    apply walkFn_Returned in H as (doc2 & op & Hb & _ & _ & Hat & Hother).
    split; [by exists doc2, op|]. split; [|done].
    by rewrite Hat, assign_unknown.
  - intros l doc2 op Hb. rewrite walkFn_unfold, Hb. simpl.
    rewrite app_nil_r. by eexists.
  - intros m. apply walkFn_log_any_method.
  - intros m Hm'. rewrite !walkFn_unfold. simpl route. simpl handler.
    simpl method. apply bind_ext. intros [doc2 op].
    by rewrite !assign_unknown.
Qed.

Lemma unrecognized_method_is_dropped_witness :
  (method traceRoute ∉ knownMethods) /\
  walkFn newDoc traceRoute =
    ([], Returned (setPaths newDoc {["/debug/{id}" := emptyPathItem]})) /\
  (forall l doc',
     walkFn newDoc traceRoute = (l, Returned doc') ->
     (exists doc2 op,
        buildOperation (ensured newDoc (route traceRoute)) (route traceRoute)
                       (handler traceRoute) = (l, Returned (doc2, op))) /\
     Paths doc' !! route traceRoute =
       Some (default emptyPathItem (Paths newDoc !! route traceRoute)) /\
     (forall p, p <> route traceRoute -> Paths doc' !! p = Paths newDoc !! p)).
Proof.
  assert (Hm : method traceRoute ∉ knownMethods).
  { unfold knownMethods. simpl. intros H.
    repeat (apply elem_of_cons in H as [H|H]; [discriminate H|]).
    by apply elem_of_nil in H. }
  split; [exact Hm|]. split; [by vm_compute|].
  exact (proj1 (unrecognized_method_is_dropped newDoc traceRoute Hm)).
Defined.

(** ** C10: every walked pattern is a path *)

(** C10.  When the build returns, the pattern of every walked route is a
    key of the paths map, whatever the method of the route; and a pattern
    all of whose walked routes have a method outside the enumeration is
    mapped to the path item without operations. *)
Theorem every_walked_pattern_is_a_path routes l doc :
  initializeDoc routes = (l, Returned doc) ->
  (forall r, r ∈ routes -> is_Some (Paths doc !! route r)) /\
  (forall r, r ∈ routes ->
     (forall r', r' ∈ routes -> route r' = route r ->
                 method r' ∉ knownMethods) ->
     Paths doc !! route r = Some emptyPathItem).
Proof.
  intros H. split.
  - intros r Hr. destruct (Walk_paths _ _ _ _ H (route r)) as [Hdom _].
    apply Hdom. right. by exists r.
  - intros r Hr Hm. destruct (Walk_paths _ _ _ _ H (route r)) as [Hdom Hitem].
    assert (Hsome : is_Some (Paths doc !! route r)).
    { apply Hdom. right. by exists r. }
    destruct Hsome as [pathItem Hp]. specialize (Hitem Hm).
    rewrite Hp in Hitem. simpl in Hitem.
    rewrite lookup_empty in Hitem. simpl in Hitem. by rewrite Hp, Hitem.
Qed.

Lemma every_walked_pattern_is_a_path_witness :
  exists l doc,
    initializeDoc routesWithTrace = (l, Returned doc) /\
    (forall r, r ∈ routesWithTrace -> is_Some (Paths doc !! route r)) /\
    (forall r, r ∈ routesWithTrace ->
       (forall r', r' ∈ routesWithTrace -> route r' = route r ->
                   method r' ∉ knownMethods) ->
       Paths doc !! route r = Some emptyPathItem).
Proof.
  destruct (initializeDoc routesWithTrace) as [l [doc|msg]] eqn:H.
  - exists l, doc. split; [reflexivity|].
    exact (every_walked_pattern_is_a_path routesWithTrace l doc H).
  - vm_compute in H. discriminate H.
Defined.

(** ** The matches of the path-parameter pattern *)

Lemma spanNotClose_length s :
  String.length (regexp.spanNotClose s).2 <= String.length s.
Proof.
  induction s as [|c s IH]; simpl; [lia|].
  destruct (Ascii.eqb c "}"); simpl; [lia|].
  destruct (regexp.spanNotClose s) as [run tl]. simpl in *. lia.
Qed.

Lemma matchAt_shorter s g tl :
  regexp.matchAt s = Some (g, tl) -> String.length tl < String.length s.
Proof.
  unfold regexp.matchAt. destruct s as [|c rest]; [done|].
  destruct (Ascii.eqb_spec c "{") as [->|Hne].
  - pose proof (spanNotClose_length rest) as Hlen.
    destruct (regexp.spanNotClose rest) as [[|c' run] [|d tl']]; try done.
    destruct (Ascii.eqb_spec d "}") as [->|Hd].
    + intros [= <- <-]. simpl in *. lia.
    + intros H. exfalso.
      destruct d as [[] [] [] [] [] [] [] []]; try discriminate H.
      by apply Hd.
  - intros H. exfalso.
    destruct c as [[] [] [] [] [] [] [] []]; try discriminate H.
    by apply Hne.
Qed.

(** Any fuel at least the length of the input gives the same matches. *)
Lemma findAll_fuel n m s :
  String.length s <= n -> String.length s <= m ->
  regexp.findAll n s = regexp.findAll m s.
Proof.
  revert m s. induction n as [|n IH]; intros m s Hn Hm.
  - destruct s; [|simpl in Hn; lia]. by destruct m.
  - destruct m as [|m]; [destruct s; [done|simpl in Hm; lia]|].
    simpl. destruct s as [|c rest]; [done|].
    destruct (regexp.matchAt (String.String c rest)) as [[g tl]|] eqn:Hmatch.
    + apply matchAt_shorter in Hmatch. simpl in *.
      f_equal. apply IH; lia.
    + simpl in *. apply IH; lia.
Qed.

Lemma FindAll_step c rest :
  regexp.FindAllStringSubmatch (String.String c rest) =
    match regexp.matchAt (String.String c rest) with
    | Some (g, tl) =>
        (("{" ++ g ++ "}")%string, g) :: regexp.FindAllStringSubmatch tl
    | None => regexp.FindAllStringSubmatch rest
    end.
Proof.
  unfold regexp.FindAllStringSubmatch. simpl String.length.
  cbn [regexp.findAll].
  destruct (regexp.matchAt (String.String c rest)) as [[g tl]|] eqn:Hmatch.
  - f_equal. apply matchAt_shorter in Hmatch. simpl in Hmatch.
    apply findAll_fuel; lia.
  - done.
Qed.

Lemma matchAt_not_open c rest :
  Ascii.eqb c "{" = false -> regexp.matchAt (String.String c rest) = None.
Proof.
  intros H. unfold regexp.matchAt.
  destruct c as [[] [] [] [] [] [] [] []]; try reflexivity. discriminate H.
Qed.

(** Text that opens no brace holds no match and hides none. *)
Lemma FindAll_literal text s :
  occurs "{" text = false ->
  regexp.FindAllStringSubmatch (text ++ s) = regexp.FindAllStringSubmatch s.
Proof.
  induction text as [|c text IH]; intros H; [done|].
  simpl in H. apply orb_false_elim in H as [Hc Htext].
  change (String.String c text ++ s)%string
    with (String.String c (text ++ s)%string).
  rewrite FindAll_step, matchAt_not_open by done. by apply IH.
Qed.

Lemma spanNotClose_name name s :
  occurs "}" name = false ->
  regexp.spanNotClose (name ++ String.String "}" s) =
    (name, String.String "}" s).
Proof.
  induction name as [|c name IH]; intros H.
  - reflexivity.
  - simpl in H. apply orb_false_elim in H as [Hc Hname].
    change (String.String c name ++ String.String "}" s)%string
      with (String.String c (name ++ String.String "}" s)%string).
    simpl. rewrite Hc. by rewrite IH.
Qed.

(** A placeholder at the front is the first match, and its content is
    group 1. *)
Lemma FindAll_placeholder name s :
  name <> EmptyString -> occurs "}" name = false ->
  regexp.FindAllStringSubmatch ("{" ++ name ++ "}" ++ s) =
    (("{" ++ name ++ "}")%string, name) :: regexp.FindAllStringSubmatch s.
Proof.
  intros Hne Hname.
  change ("{" ++ name ++ "}" ++ s)%string
    with (String.String "{" (name ++ String.String "}" s)%string).
  rewrite FindAll_step. unfold regexp.matchAt.
  rewrite spanNotClose_name by done.
  by destruct name.
Qed.

Lemma wellFormed_Hole name :
  wellFormed (Hole name) = true ->
  name <> EmptyString /\ occurs "}" name = false.
Proof.
  simpl. intros [H1 H2]%andb_prop. split.
  - intros ->. discriminate H1.
  - by apply negb_true_iff.
Qed.

(** The matches of a well-formed pattern are its placeholders, from left
    to right. *)
Lemma FindAll_render segs :
  Forall (fun seg => wellFormed seg = true) segs ->
  (regexp.FindAllStringSubmatch (render segs)).*2 = holes segs.
Proof.
  induction 1 as [|[text|name] segs Hwf _ IH]; simpl.
  - reflexivity.
  - rewrite FindAll_literal; [done|]. simpl in Hwf. by apply negb_true_iff.
  - apply wellFormed_Hole in Hwf as [Hne Hname].
    rewrite FindAll_placeholder by done. by rewrite fmap_cons, IH.
Qed.

(** ** C5: path parameters *)

Lemma replace_param_fresh ps param :
  Forall (fun p => same_slot p param = false) ps ->
  replace_param ps param = None.
Proof.
  induction 1 as [|p ps Hp _ IH]; simpl; [done|]. by rewrite Hp, IH.
Qed.

Lemma AddParam_fresh op param :
  Forall (fun p => same_slot p param = false) (OpParameters op) ->
  OpParameters (AddParam op param) = OpParameters op ++ [param].
Proof. intros H. unfold AddParam; simpl. by rewrite replace_param_fresh. Qed.

Lemma same_slot_PathParam n1 n2 :
  n1 <> n2 -> same_slot (PathParam n1) (PathParam n2) = false.
Proof.
  intros Hne. unfold same_slot; simpl.
  by destruct (String.eqb_spec n1 n2).
Qed.

Lemma same_slot_BodyParam name schema n :
  same_slot (BodyParam name schema) (PathParam n) = false.
Proof. unfold same_slot; simpl. apply andb_false_r. Qed.

(** Distinct names are appended one after the other. *)
Lemma fold_AddParam_fresh (ms : list (string * string)) op :
  NoDup ms.*2 ->
  Forall (fun p => forall n, n ∈ ms.*2 -> same_slot p (PathParam n) = false)
         (OpParameters op) ->
  OpParameters
    (fold_left (fun op pathParam => AddParam op (PathParam pathParam.2)) ms op)
  = OpParameters op ++ map PathParam ms.*2.
Proof.
  revert op. induction ms as [|[whole n] ms IH]; intros op Hnd Hop; simpl.
  - by rewrite app_nil_r.
  - rewrite fmap_cons in Hnd, Hop. simpl in Hnd, Hop.
    apply NoDup_cons in Hnd as [Hn Hnd].
    assert (Hadd : OpParameters (AddParam op (PathParam n)) =
                   OpParameters op ++ [PathParam n]).
    { apply AddParam_fresh. eapply Forall_impl; [exact Hop|].
      intros p Hp. apply Hp. by left. }
    rewrite IH; [|done|].
    + rewrite Hadd. by rewrite <- app_assoc.
    + rewrite Hadd. apply Forall_app. split.
      * eapply Forall_impl; [exact Hop|]. intros p Hp n' Hn'. apply Hp. by right.
      * constructor; [|done]. intros n' Hn'. apply same_slot_PathParam.
        intros ->. done.
Qed.

Lemma filter_isPathParam_names names :
  List.filter isPathParam (map PathParam names) = map PathParam names.
Proof. induction names as [|n names IH]; simpl; [done|]. by rewrite IH. Qed.

(** C5 as stated fails twice.  The parameters of [/users/{id}/posts/{postId}]
    are named [id] and [postId] in that order, but carry no type, so they
    are not the string-typed parameters of the claim; and the two
    placeholders of [/orgs/{id}/users/{id}] give one parameter, the second
    [AddParam] replacing the first. *)
Lemma path_params_untyped_and_merged :
  pathParamsOf "/users/{id}/posts/{postId}" = map PathParam ["id"; "postId"] /\
  pathParamsOf "/users/{id}/posts/{postId}" <>
    map stringPathParam ["id"; "postId"] /\
  (regexp.FindAllStringSubmatch "/orgs/{id}/users/{id}").*2 = ["id"; "id"] /\
  pathParamsOf "/orgs/{id}/users/{id}" = [PathParam "id"] /\
  length (pathParamsOf "/orgs/{id}/users/{id}") <> 2.
Proof.
  split; [by vm_compute|]. split; [by vm_compute|].
  split; [by vm_compute|]. split; by vm_compute.
Qed.

(** A placeholder whose content closes a brace, as a pattern with a
    counted repetition has it, is cut at that brace. *)
Example placeholder_with_inner_braces :
  pathParamsOf "/codes/{id:[0-9]{3}}" = [PathParam "id:[0-9]{3"].
Proof. by vm_compute. Qed.

(** C5 (amended).  For a route pattern made of text that opens no brace
    and of placeholders with non-empty, brace-free and pairwise distinct
    contents, the operation the callback builds ends with exactly one path
    parameter per placeholder, in the order of the placeholders: each is
    named by the content of its placeholder, is [in: "path"] and required,
    and carries no type.  Before them stands at most the body parameter. *)
Theorem path_parameters_follow_placeholders doc h segs l doc' op :
  Forall (fun seg => wellFormed seg = true) segs ->
  NoDup (holes segs) ->
  buildOperation doc (render segs) h = (l, Returned (doc', op)) ->
  List.filter isPathParam (OpParameters op) = map PathParam (holes segs) /\
  (exists body,
     OpParameters op = body ++ map PathParam (holes segs) /\
     length body <= 1 /\ Forall (fun p => In p = "body") body) /\
  Forall (fun p => exists name,
            name ∈ holes segs /\ ParamName p = name /\ In p = "path" /\
            Required p = true /\ ParamType p = "")
         (map PathParam (holes segs)).
Proof.
  intros Hwf Hnd H.
  apply buildOperation_Returned in H as (_ & _ & op2 & -> & Hop2).
  pose proof (FindAll_render segs Hwf) as Hms.
  assert (Hps : OpParameters (withPathParams op2 (render segs)) =
                OpParameters op2 ++ map PathParam (holes segs)).
  { unfold withPathParams. rewrite fold_AddParam_fresh, Hms; [done| |].
    - by rewrite Hms.
    - destruct Hop2 as [->|(name & schema & ->)]; [done|].
      constructor; [|done]. intros n _. apply same_slot_BodyParam. }
  split; [|split].
  - rewrite Hps, List.filter_app, filter_isPathParam_names.
    by destruct Hop2 as [->|(name & schema & ->)].
  - exists (OpParameters op2). split; [done|].
    destruct Hop2 as [->|(name & schema & ->)]; simpl.
    + split; [lia|done].
    + split; [lia|]. by constructor.
  - apply Forall_forall. intros p (name & -> & Hname)%list_elem_of_fmap.
    by exists name.
Qed.

Lemma path_parameters_follow_placeholders_witness :
  exists op,
    buildOperation newDoc "/users/{id}/posts/{postId}" (ghttp.Foreign None None)
      = ([], Returned (newDoc, op)) /\
    List.filter isPathParam (OpParameters op) = map PathParam ["id"; "postId"].
Proof.
  pose (segs := [Lit "/users/"; Hole "id"; Lit "/posts/"; Hole "postId"]).
  destruct (buildOperation newDoc (render segs) (ghttp.Foreign None None))
    as [l [[doc' op]|msg]] eqn:H.
  - assert (Hwf : Forall (fun seg => wellFormed seg = true) segs)
      by (repeat constructor).
    assert (Hnd : NoDup (holes segs)).
    { simpl. apply NoDup_cons. split; [|apply NoDup_singleton].
      intros Hin%list_elem_of_singleton. discriminate Hin. }
    exists op. split.
    + vm_compute in H. injection H as <- <- <-. by vm_compute.
    + exact (proj1 (path_parameters_follow_placeholders
                      newDoc (ghttp.Foreign None None) segs l doc' op
                      Hwf Hnd H)).
  - vm_compute in H. discriminate H.
Defined.

(** ** C7 and C9: serving a request with a body *)

Section ServeFacts.
Context {I O V Request Err : Type}.
Variable decode : Request -> Err + I.
Variable encode : ghttp.any O V -> option Err.

Local Abbreviation ServeHTTP :=
  (ghttp.JSONPayloadHandler_ServeHTTP I O V Request Err decode encode).
Local Abbreviation respond :=
  (ghttp.respond I O V Request Err encode).

Lemma respond_invalid_status resp statusCode :
  http.checkWriteHeaderCode statusCode = false ->
  respond resp statusCode =
    [ghttp.HeaderSet I O V Request Err "Content-Type" "application/json";
     ghttp.WriteHeaderPanicked I O V Request Err statusCode].
Proof. intros H. unfold ghttp.respond. by rewrite H. Qed.


(** C9.  The fallback the package starts with answers every decode error
    with the string "Invalid payload" and the status 502, which is
    [http.StatusBadGateway] and no 4xx status; so a request whose body
    fails to decode, served before any replacement, gets exactly that.
    The setter puts its argument in place of the fallback. *)
Theorem default_fallback_is_bad_gateway
    (handlerFunc : Request -> I -> O * Z) (r : Request) :
  (forall err : Err,
     ghttp.defaultInvalidJSONPayloadHandler O V Err
       (ghttp.initialGlobals O V Err) err
     = (ghttp.anyString O V "Invalid payload", 502%Z)) /\
  http.StatusBadGateway = 502%Z /\
  ~ (400 <= http.StatusBadGateway < 500)%Z /\
  match decode r with
  | inl err =>
      let tr := ServeHTTP (ghttp.initialGlobals O V Err) handlerFunc r in
      statusWritten tr = [502%Z] /\
      bodiesEncoded tr = [ghttp.anyString O V "Invalid payload"] /\
      handlerCalls tr = []
  | inr _ => True
  end /\
  (forall fn g,
     ghttp.defaultInvalidJSONPayloadHandler O V Err
       (ghttp.SetDefaultInvalidJSONPayloadHandler O V Err fn g) = fn).
Proof.
  split; [done|]. split; [done|]. split; [unfold http.StatusBadGateway; lia|].
  split; [|done].
  unfold ghttp.JSONPayloadHandler_ServeHTTP.
  destruct (decode r) as [err|payload]; [|done]. simpl.
  unfold ghttp.respond.
  change (http.checkWriteHeaderCode http.StatusBadGateway) with true.
  by destruct (encode (ghttp.anyString O V "Invalid payload")).
Qed.
End ServeFacts.


(** A callback that returns the status 0: [WriteHeader] panics once the
    content type is set, and no status and no body go out. *)
Example callback_with_status_zero_panics :
  ghttp.JSONPayloadHandler_ServeHTTP nat nat unit string string
    sampleDecode sampleEncode
    (ghttp.initialGlobals nat unit string) (echoCallback 0) "7" =
    [ghttp.CalledHandlerFunc nat nat unit string string "7" 7;
     ghttp.HeaderSet nat nat unit string string
       "Content-Type" "application/json";
     ghttp.WriteHeaderPanicked nat nat unit string string 0].
Proof. reflexivity. Qed.

(** * Further properties *)

(** ** Names *)

Lemma ReplaceAll_removes s old new :
  new <> old -> occurs old (gostrings.ReplaceAll s old new) = false.
Proof.
  intros Hne. induction s as [|c s IH]; simpl; [done|].
  rewrite IH, orb_false_r.
  destruct (Ascii.eqb_spec c old) as [->|Hc].
  - by apply Ascii.eqb_neq.
  - by apply Ascii.eqb_neq.
Qed.

(** X1.  The name [getName] gives a type, which is its key in the
    definitions table and the tail of every reference to it, never holds
    a slash, whatever the declared name and however many pointers lead to
    it. *)
Theorem getName_has_no_slash (t : rtype) :
  occurs "/" (getName t) = false.
Proof.
  induction t as [k name str|name str len elem IH|name str elem IH
                 |name str elem IH|name str fields IH] using rtype_nested_ind;
    simpl; try (apply ReplaceAll_removes; discriminate).
  exact IH.
Qed.

(** ** Where [getProperty] gives nil, and where it panics *)

Lemma nilSchema_leaf t :
  nilSchema t = true ->
  exists k name str,
    t = TLeaf k name str /\ unsupportedLeaf k = true /\ specialName t = false.
Proof.
  unfold nilSchema. intros [Hs Hk]%andb_prop.
  apply negb_true_iff in Hs. destruct t; try discriminate Hk. eauto 6.
Qed.

(** X2.  [getProperty] returns nil exactly on a leaf of a kind it has no
    case for that bears no special name, and then it has logged exactly
    the diagnostic for that type; arrays, slices, structs and pointers
    never come back as "no schema". *)
Theorem getProperty_nil_iff (t : rtype) :
  (snd (getProperty t) = Returned None <-> nilSchema t = true) /\
  (snd (getProperty t) = Returned None ->
   fst (getProperty t) = [unknownKindLine t]).
Proof.
  assert (Hback : nilSchema t = true ->
                  getProperty t = ([unknownKindLine t], Returned None)).
  { intros (k & name & str & -> & Hk & Hs)%nilSchema_leaf.
    by apply getProperty_unsupported_leaf. }
  assert (Hforth : snd (getProperty t) = Returned None -> nilSchema t = true).
  { intros H. unfold nilSchema.
    destruct (specialName t) eqn:Hsp.
    { destruct (getProperty_special t Hsp) as [Hs|Hs];
        rewrite Hs in H; discriminate H. }
    simpl. destruct t as [k name str|name str len elem|name str elem
                         |name str elem|name str fields].
    - apply specialName_false in Hsp as [H1 H2]. simpl in H1, H2.
      unfold getProperty in H. simpl String_ in H. rewrite H1, H2 in H.
      by destruct k.
    - apply specialName_false in Hsp as [H1 H2]. simpl in H1, H2, H.
      rewrite H1, H2 in H.
      destruct (getProperty elem) as [l [o|msg]]; discriminate H.
    - rewrite getProperty_pointer in H by done.
      destruct (getProperty elem) as [l [[p|]|msg]]; discriminate H.
    - apply specialName_false in Hsp as [H1 H2]. simpl in H1, H2, H.
      rewrite H1, H2 in H.
      destruct (getProperty elem) as [l [o|msg]]; discriminate H.
    - rewrite getProperty_struct in H by done.
      destruct (fieldsLoop getProperty fields ∅) as [l [o|msg]];
        discriminate H. }
  split; [split; [done|]|].
  - intros H. by rewrite (Hback H).
  - intros H. by rewrite (Hback (Hforth H)).
Qed.

Lemma fieldsLoop_outcome fs :
  Forall (fun f => if nilPointee (FieldType f)
                   then snd (getProperty (FieldType f)) = Panicked nilDeref
                   else returns (getProperty (FieldType f))) fs ->
  forall props,
    if existsb (fun f => nilPointee (FieldType f)) fs
    then snd (fieldsLoop getProperty fs props) = Panicked nilDeref
    else returns (fieldsLoop getProperty fs props).
Proof.
  induction 1 as [|f rest Hf _ IH]; intros props.
  - by eexists.
  - rewrite fieldsLoop_cons. simpl existsb.
    destruct (nilPointee (FieldType f)); simpl.
    + destruct (getProperty (FieldType f)) as [l o]. simpl in Hf. by subst o.
    + destruct Hf as [o Ho].
      destruct (getProperty (FieldType f)) as [l out]. simpl in Ho. subst out.
      simpl.
      match goal with
      | |- context [fieldsLoop getProperty rest ?q] => specialize (IH q);
          destruct (fieldsLoop getProperty rest q) as [l2 o2]
      end.
      by destruct (existsb _ rest).
Qed.

Lemma getProperty_outcome (t : rtype) :
  if nilPointee t then snd (getProperty t) = Panicked nilDeref
  else returns (getProperty t).
Proof.
  induction t as [k name str|name str len elem IH|name str elem IH
                 |name str elem IH|name str fields IH] using rtype_nested_ind.
  all: match goal with
       | |- context [nilPointee ?t] =>
           destruct (specialName t) eqn:Hsp;
           [assert (Hn : nilPointee t = false)
              by (simpl nilPointee; simpl in Hsp; by rewrite Hsp);
            rewrite Hn;
            destruct (getProperty_special t Hsp) as [Hs|Hs];
            rewrite Hs; by eexists|]
       end.
  - assert (Hn : nilPointee (TLeaf k name str) = false)
      by (simpl nilPointee; apply andb_false_r).
    rewrite Hn.
    apply specialName_false in Hsp as [H1 H2]. simpl in H1, H2.
    unfold getProperty. simpl String_. rewrite H1, H2.
    destruct k; by eexists.
  - assert (Hn : nilPointee (TArray name str len elem) = nilPointee elem)
      by (simpl nilPointee; simpl in Hsp; by rewrite Hsp).
    rewrite Hn.
    apply specialName_false in Hsp as [H1 H2]. simpl in H1, H2.
    simpl. rewrite H1, H2.
    destruct (nilPointee elem).
    + destruct (getProperty elem) as [l o]. simpl in IH. by subst o.
    + destruct IH as [o Ho]. destruct (getProperty elem) as [l out].
      simpl in Ho. subst out. by eexists.
  - assert (Hn : nilPointee (TPointer name str elem) =
                 nilPointee elem || nilSchema elem)
      by (simpl nilPointee; simpl in Hsp; by rewrite Hsp).
    rewrite Hn. rewrite getProperty_pointer by done.
    destruct (nilPointee elem); simpl.
    + destruct (getProperty elem) as [l o]. simpl in IH. by subst o.
    + destruct IH as [o Ho].
      destruct (getProperty_nil_iff elem) as [Hiff _].
      destruct (getProperty elem) as [l out]. simpl in Ho, Hiff. subst out.
      destruct o as [p|]; simpl.
      * destruct (nilSchema elem) eqn:Hnil; [|by eexists].
        destruct Hiff as [_ Hiff]. by specialize (Hiff eq_refl).
      * destruct Hiff as [Hiff _]. by rewrite (Hiff eq_refl).
  - assert (Hn : nilPointee (TSlice name str elem) = nilPointee elem)
      by (simpl nilPointee; simpl in Hsp; by rewrite Hsp).
    rewrite Hn.
    apply specialName_false in Hsp as [H1 H2]. simpl in H1, H2.
    simpl. rewrite H1, H2.
    destruct (nilPointee elem).
    + destruct (getProperty elem) as [l o]. simpl in IH. by subst o.
    + destruct IH as [o Ho]. destruct (getProperty elem) as [l out].
      simpl in Ho. subst out. by eexists.
  - assert (Hn : nilPointee (TStruct name str fields) =
                 existsb (fun f => nilPointee (FieldType f)) fields)
      by (simpl nilPointee; simpl in Hsp; by rewrite Hsp).
    rewrite Hn. rewrite getProperty_struct by done.
    pose proof (fieldsLoop_outcome fields IH ∅) as Hloop.
    destruct (existsb _ fields).
    + destruct (fieldsLoop getProperty fields ∅) as [l o].
      simpl in Hloop. by subst o.
    + destruct Hloop as [props Hp].
      destruct (fieldsLoop getProperty fields ∅) as [l o].
      simpl in Hp. subst o. by eexists.
Qed.

(** X3.  Whenever [getProperty] returns, it met no pointer whose pointee
    converts to nil; and whenever it panics, the panic is the nil
    dereference and the type holds such a pointer where [getProperty]
    gets to: it has no other way to panic.  Nothing is said of a type on
    which it gives no result. *)
Theorem getProperty_outcome_sound (t : rtype) :
  (returns (getProperty t) -> nilPointee t = false) /\
  (forall msg,
     snd (getProperty t) = Panicked msg ->
     msg = nilDeref /\ nilPointee t = true).
Proof.
  pose proof (getProperty_outcome t) as H.
  destruct (nilPointee t) eqn:Hn.
  - split.
    + intros [o Ho]. rewrite H in Ho. discriminate Ho.
    + intros msg Hmsg. rewrite H in Hmsg. by injection Hmsg as <-.
  - split; [done|].
    intros msg Hmsg. destruct H as [o Ho]. rewrite Ho in Hmsg.
    discriminate Hmsg.
Qed.

(** X4.  An array or a slice whose element type converts to nil does not
    panic and is not dropped: the result is an array schema without an
    item schema, and the diagnostic for the element is in the log. *)
Theorem getProperty_sequence_of_nil_element name str len elem :
  nilSchema elem = true ->
  specialName (TArray name str len elem) = false ->
  getProperty (TArray name str len elem) =
    ([unknownKindLine elem], Returned (Some (ArrayProperty None))) /\
  getProperty (TSlice name str elem) =
    ([unknownKindLine elem], Returned (Some (ArrayProperty None))).
Proof.
  intros (k & ename & estr & -> & Hk & Hs)%nilSchema_leaf Hsp.
  apply specialName_false in Hsp as [H1 H2]. simpl in H1, H2.
  pose proof (getProperty_unsupported_leaf k ename estr Hs Hk) as Hg.
  split.
  - change (getProperty (TArray name str len (TLeaf k ename estr)))
      with (if String.eqb str "uuid.UUID" then ret (Some (StrFmtProperty "uuid"))
            else if String.eqb str "date.DateString" then ret (Some DateProperty)
            else let* items := getProperty (TLeaf k ename estr) in
                 ret (Some (ArrayProperty items))).
    by rewrite H1, H2, Hg.
  - change (getProperty (TSlice name str (TLeaf k ename estr)))
      with (if String.eqb str "uuid.UUID" then ret (Some (StrFmtProperty "uuid"))
            else if String.eqb str "date.DateString" then ret (Some DateProperty)
            else let* items := getProperty (TLeaf k ename estr) in
                 ret (Some (ArrayProperty items))).
    by rewrite H1, H2, Hg.
Qed.

Lemma getProperty_sequence_of_nil_element_witness :
  getProperty (TArray "" "[4]map[string]int" 4 tMapStringInt) =
    ([unknownKindLine tMapStringInt], Returned (Some (ArrayProperty None))) /\
  getProperty (TSlice "" "[4]map[string]int" tMapStringInt) =
    ([unknownKindLine tMapStringInt], Returned (Some (ArrayProperty None))).
Proof.
  apply (getProperty_sequence_of_nil_element
           "" "[4]map[string]int" 4 tMapStringInt); reflexivity.
Defined.

Lemma set_Nullable_twice s b : set_Nullable (set_Nullable s b) b = set_Nullable s b.
Proof. by destruct s. Qed.

(** X5.  A pointer to a pointer converts exactly as the inner pointer
    does: same log, same panic or same schema, the nullable mark being set
    once more on a schema that already has it.  Only the name tells the
    two apart, by one more asterisk. *)
Theorem getProperty_pointer_to_pointer name str name' str' elem :
  specialName (TPointer name str (TPointer name' str' elem)) = false ->
  specialName (TPointer name' str' elem) = false ->
  getProperty (TPointer name str (TPointer name' str' elem)) =
    getProperty (TPointer name' str' elem) /\
  getName (TPointer name str (TPointer name' str' elem)) =
    ("*" ++ getName (TPointer name' str' elem))%string.
Proof.
  intros Houter Hinner. split; [|reflexivity].
  rewrite (getProperty_pointer name str) by done.
  rewrite getProperty_pointer by done.
  destruct (getProperty elem) as [l [[p|]|msg]]; simpl; [|done|done].
  by rewrite !app_nil_r, set_Nullable_twice.
Qed.

Lemma getProperty_pointer_to_pointer_witness :
  getProperty (TPointer "" "**int" (TPointer "" "*int" tInt)) =
    getProperty (TPointer "" "*int" tInt) /\
  getName (TPointer "" "**int" (TPointer "" "*int" tInt)) =
    ("*" ++ getName (TPointer "" "*int" tInt))%string.
Proof.
  apply (getProperty_pointer_to_pointer "" "**int" "" "*int" tInt);
    reflexivity.
Defined.

(** ** Struct fields *)

Lemma fieldEntries_app fs1 fs2 :
  fieldEntries (fs1 ++ fs2) = fieldEntries fs1 ++ fieldEntries fs2.
Proof.
  induction fs1 as [|f fs1 IH]; [done|].
  change ((f :: fs1) ++ fs2) with (f :: (fs1 ++ fs2)).
  rewrite !fieldEntries_cons, IH. by destruct (fieldSchema f).
Qed.

Lemma struct_properties name str fields l s :
  specialName (TStruct name str fields) = false ->
  getProperty (TStruct name str fields) = (l, Returned (Some s)) ->
  s = objectSchema (foldl store ∅ (fieldEntries fields)) /\
  Forall (fun f => returns (getProperty (FieldType f))) fields.
Proof.
  intros Hsp H. rewrite getProperty_struct in H by done.
  apply bind_Returned in H as (l1 & props & l2 & Hloop & Hret & _).
  injection Hret as _ <-.
  pose proof (fieldsLoop_Returned _ _ _ _ Hloop) as Hall.
  destruct (fieldsLoop_returns fields ∅ Hall) as [l' Hl'].
  rewrite Hl' in Hloop. injection Hloop as _ <-. done.
Qed.

(** X6.  When several fields of a struct have the same key, the property
    under that key is the schema of the last of them, in declaration
    order, that has a schema: a later field overwrites an earlier one,
    and fields without a schema overwrite nothing. *)
Theorem struct_same_key_last_field_wins name str before f after p l s :
  specialName (TStruct name str (before ++ f :: after)) = false ->
  getProperty (TStruct name str (before ++ f :: after)) =
    (l, Returned (Some s)) ->
  fieldSchema f = Some p ->
  (forall f', f' ∈ after -> fieldKey f' = fieldKey f -> fieldSchema f' = None) ->
  Properties s !! fieldKey f = Some p.
Proof.
  intros Hsp H Hp Hafter.
  apply struct_properties in H as [-> _]; [|done]. simpl.
  rewrite fieldEntries_app, fieldEntries_cons, Hp, foldl_app. simpl.
  rewrite foldl_store_notin.
  - unfold store; simpl. by rewrite lookup_insert_eq.
  - intros ([k q] & Hk & Hin)%list_elem_of_fmap. simpl in Hk. subst k.
    apply fieldEntries_elem in Hin as (f' & Hf' & Hkey & Hq).
    by rewrite (Hafter f' Hf' Hkey) in Hq.
Qed.

Lemma struct_same_key_last_field_wins_witness :
  exists l s,
    getProperty (TStruct "Pair" "main.Pair"
                   ([mkField "A" "" tInt] ++ mkField "B" "" tString :: [])) =
      (l, Returned (Some s)) /\
    Properties s !! "" = Some StringProperty.
Proof.
  destruct (getProperty (TStruct "Pair" "main.Pair"
              ([mkField "A" "" tInt] ++ mkField "B" "" tString :: [])))
    as [l [[s|]|msg]] eqn:H.
  - exists l, s. split; [reflexivity|].
    apply (struct_same_key_last_field_wins "Pair" "main.Pair"
             [mkField "A" "" tInt] (mkField "B" "" tString) []
             StringProperty l s).
    + reflexivity.
    + exact H.
    + reflexivity.
    + intros f' Hf'. by apply elem_of_nil in Hf'.
  - vm_compute in H. discriminate H.
  - vm_compute in H. discriminate H.
Defined.

Lemma fieldEntries_Permutation fs fs' :
  fs ≡ₚ fs' -> fieldEntries fs ≡ₚ fieldEntries fs'.
Proof.
  induction 1 as [|f fs fs' _ IH|f g fs|fs1 fs2 fs3 _ IH1 _ IH2].
  - done.
  - rewrite !fieldEntries_cons. destruct (fieldSchema f); [by f_equiv|done].
  - rewrite !fieldEntries_cons.
    destruct (fieldSchema f), (fieldSchema g); try done. apply perm_swap.
  - by etrans.
Qed.

Lemma foldl_store_Permutation (es es' : list (string * Schema)) :
  NoDup es.*1 -> es ≡ₚ es' -> foldl store ∅ es = foldl store ∅ es'.
Proof.
  intros Hnd Hperm.
  assert (Hnd' : NoDup es'.*1) by (by rewrite <- Hperm).
  apply map_eq. intros k. apply option_eq. intros p. split.
  - intros [H|H]%foldl_store_lookup; [|by rewrite lookup_empty in H].
    apply foldl_store_in; [done|]. by rewrite <- Hperm.
  - intros [H|H]%foldl_store_lookup; [|by rewrite lookup_empty in H].
    apply foldl_store_in; [done|]. by rewrite Hperm.
Qed.

(** X7.  When the fields that have a schema have pairwise distinct keys,
    the schema of a struct does not depend on the order in which its
    fields are declared. *)
Theorem struct_schema_ignores_field_order name str fields fields' l s :
  specialName (TStruct name str fields) = false ->
  fields ≡ₚ fields' ->
  NoDup (fieldEntries fields).*1 ->
  getProperty (TStruct name str fields) = (l, Returned (Some s)) ->
  exists l', getProperty (TStruct name str fields') = (l', Returned (Some s)).
Proof.
  intros Hsp Hperm Hnd H.
  apply struct_properties in H as [-> Hall]; [|done].
  assert (Hall' : Forall (fun f => returns (getProperty (FieldType f))) fields')
    by (by rewrite <- Hperm).
  destruct (fieldsLoop_returns fields' ∅ Hall') as [l' Hl'].
  exists (l' ++ []). rewrite getProperty_struct by done. rewrite Hl'. simpl.
  do 3 f_equal. unfold objectSchema. f_equal.
  symmetry. apply foldl_store_Permutation; [done|].
  by apply fieldEntries_Permutation.
Qed.

Lemma struct_schema_ignores_field_order_witness :
  exists l s l',
    getProperty (TStruct "Widget" "main.Widget" widgetFields) =
      (l, Returned (Some s)) /\
    getProperty (TStruct "Widget" "main.Widget" (reverse widgetFields)) =
      (l', Returned (Some s)).
Proof.
  destruct (getProperty (TStruct "Widget" "main.Widget" widgetFields))
    as [l [[s|]|msg]] eqn:H.
  - assert (Hnd : NoDup (fieldEntries widgetFields).*1).
    { change ((fieldEntries widgetFields).*1) with ["id"; "count"].
      apply NoDup_cons. split; [|apply NoDup_singleton].
      intros Hin%list_elem_of_singleton. discriminate Hin. }
    assert (Hperm : widgetFields ≡ₚ reverse widgetFields)
      by (symmetry; apply reverse_Permutation).
    destruct (struct_schema_ignores_field_order
                "Widget" "main.Widget" widgetFields (reverse widgetFields)
                l s eq_refl Hperm Hnd H)
      as [l' Hl'].
    by exists l, s, l'.
  - vm_compute in H. discriminate H.
  - vm_compute in H. discriminate H.
Defined.

Lemma Split_first_before_comma key opts :
  occurs "," key = false ->
  gostrings.Split_first (key ++ String.String "," opts) "," = key.
Proof.
  induction key as [|c key IH]; intros H; [done|].
  simpl in H. apply orb_false_elim in H as [Hc Hkey].
  change (String.String c key ++ String.String "," opts)%string
    with (String.String c (key ++ String.String "," opts)%string).
  simpl. rewrite Hc. by rewrite IH.
Qed.

Lemma Split_first_no_comma key :
  occurs "," key = false -> gostrings.Split_first key "," = key.
Proof.
  induction key as [|c key IH]; intros H; [done|].
  simpl in H. apply orb_false_elim in H as [Hc Hkey].
  simpl. rewrite Hc. by rewrite IH.
Qed.

(** X8.  What follows the first comma of a json tag ([omitempty] and the
    like) has no part in the key of the property: a tag made of a name
    without comma, alone or followed by a comma and anything, gives that
    name as key. *)
Theorem fieldKey_ignores_tag_options fname key opts (t : rtype) :
  occurs "," key = false ->
  fieldKey (mkField fname key t) = key /\
  fieldKey (mkField fname (key ++ String.String "," opts) t) = key.
Proof.
  intros H. unfold fieldKey; simpl. split.
  - by apply Split_first_no_comma.
  - by apply Split_first_before_comma.
Qed.

Lemma fieldKey_ignores_tag_options_witness :
  fieldKey (mkField "Count" "count" tInt) = "count" /\
  fieldKey (mkField "Count" ("count" ++ String.String "," "omitempty,string") tInt)
    = "count".
Proof.
  apply (fieldKey_ignores_tag_options "Count" "count" "omitempty,string" tInt).
  reflexivity.
Defined.

(** ** Path parameters of any pattern *)

Lemma spanNotClose_spec s run tl :
  regexp.spanNotClose s = (run, tl) ->
  s = (run ++ tl)%string /\ occurs "}" run = false /\
  (tl = EmptyString \/ exists tl', tl = String.String "}" tl').
Proof.
  revert run tl. induction s as [|c s IH]; intros run tl H; simpl in H.
  - injection H as <- <-. auto.
  - destruct (Ascii.eqb_spec c "}") as [->|Hc].
    + injection H as <- <-. repeat split; eauto.
    + destruct (regexp.spanNotClose s) as [run' tl'] eqn:Hs.
      injection H as <- <-.
      destruct (IH run' tl' eq_refl) as (-> & Hrun & Htl).
      split; [done|]. split; [|done].
      simpl. rewrite Hrun, orb_false_r. by apply Ascii.eqb_neq.
Qed.

Lemma matchAt_spec s g tl :
  regexp.matchAt s = Some (g, tl) ->
  s = ("{" ++ g ++ "}" ++ tl)%string /\ g <> EmptyString /\
  occurs "}" g = false.
Proof.
  unfold regexp.matchAt. destruct s as [|c rest]; [done|].
  destruct (Ascii.eqb_spec c "{") as [->|Hne].
  - destruct (regexp.spanNotClose rest) as [run tl0] eqn:Hspan.
    apply spanNotClose_spec in Hspan as (-> & Hrun & Htl).
    destruct run as [|c' run]; [done|].
    destruct Htl as [->|[tl' ->]]; [done|].
    intros [= <- <-]. done.
  - intros H. exfalso.
    destruct c as [[] [] [] [] [] [] [] []]; try discriminate H.
    by apply Hne.
Qed.

Lemma findAll_shape n s :
  Forall (fun m => m.1 = ("{" ++ m.2 ++ "}")%string /\ m.2 <> EmptyString /\
                   occurs "}" m.2 = false)
         (regexp.findAll n s).
Proof.
  revert s. induction n as [|n IH]; intros s; simpl; [done|].
  destruct s as [|c rest]; [done|].
  destruct (regexp.matchAt (String.String c rest)) as [[g tl]|] eqn:Hm;
    [|apply IH].
  apply matchAt_spec in Hm as (_ & Hne & Hg).
  constructor; [done|apply IH].
Qed.

Lemma AddParam_Forall (P : Param -> Prop) op param :
  Forall P (OpParameters op) -> P param ->
  Forall P (OpParameters (AddParam op param)).
Proof.
  intros Hop Hparam. unfold AddParam; simpl.
  destruct (replace_param (OpParameters op) param) as [ps|] eqn:Hr.
  - revert ps Hr.
    induction Hop as [|p ps0 Hp Hps IHp]; intros ps Hr; simpl in *; [done|].
    destruct (same_slot p param).
    + injection Hr as <-. by constructor.
    + destruct (replace_param ps0 param) eqn:Hr'; [|done].
      injection Hr as <-. constructor; [done|]. by apply IHp.
  - apply Forall_app. split; [done|]. by constructor.
Qed.

Lemma withPathParams_Forall (P : Param -> Prop) op pat :
  Forall P (OpParameters op) ->
  Forall (fun m => P (PathParam m.2)) (regexp.FindAllStringSubmatch pat) ->
  Forall P (OpParameters (withPathParams op pat)).
Proof.
  unfold withPathParams.
  generalize (regexp.FindAllStringSubmatch pat). intros ms. revert op.
  induction ms as [|m ms IH]; intros op Hop Hms; simpl; [done|].
  apply Forall_cons in Hms as [Hm Hms].
  apply IH; [|done]. by apply AddParam_Forall.
Qed.

(** X9.  Whatever the route pattern, and whether or not its braces are
    balanced, every path parameter of the operation built for it is
    required and has a name that is not empty and holds no closing brace;
    the only other parameter is the body parameter. *)
Theorem path_parameter_names_are_proper doc pat h l doc' op :
  buildOperation doc pat h = (l, Returned (doc', op)) ->
  Forall (fun p =>
            In p = "body" \/
            (In p = "path" /\ Required p = true /\
             ParamName p <> EmptyString /\ occurs "}" (ParamName p) = false))
         (OpParameters op).
Proof.
  intros H.
  apply buildOperation_Returned in H as (_ & _ & op2 & -> & Hop2).
  apply withPathParams_Forall.
  - destruct Hop2 as [->|(name & schema & ->)]; [done|].
    constructor; [by left|done].
  - eapply Forall_impl; [apply findAll_shape|].
    intros m (_ & Hne & Hclose). right. done.
Qed.

Lemma path_parameter_names_are_proper_witness :
  exists op,
    buildOperation newDoc "/a/{}/{x{y}/}{" (ghttp.Foreign None None) =
      ([], Returned (newDoc, op)) /\
    Forall (fun p =>
              In p = "body" \/
              (In p = "path" /\ Required p = true /\
               ParamName p <> EmptyString /\ occurs "}" (ParamName p) = false))
           (OpParameters op).
Proof.
  destruct (buildOperation newDoc "/a/{}/{x{y}/}{" (ghttp.Foreign None None))
    as [l [[doc' op]|msg]] eqn:H.
  - exists op. split.
    + vm_compute in H. injection H as <- <- <-. by vm_compute.
    + exact (path_parameter_names_are_proper
               newDoc "/a/{}/{x{y}/}{" (ghttp.Foreign None None) l doc' op H).
  - vm_compute in H. discriminate H.
Defined.

Lemma findAll_no_open n s :
  occurs "{" s = false -> regexp.findAll n s = [].
Proof.
  revert s. induction n as [|n IH]; intros s H; simpl; [done|].
  destruct s as [|c rest]; [done|].
  simpl in H. apply orb_false_elim in H as [Hc Hrest].
  rewrite matchAt_not_open by done. by apply IH.
Qed.

Lemma spanNotClose_no_close s :
  occurs "}" s = false -> regexp.spanNotClose s = (s, EmptyString).
Proof.
  induction s as [|c s IH]; intros H; simpl; [done|].
  simpl in H. apply orb_false_elim in H as [Hc Hs].
  rewrite Hc, IH by done. done.
Qed.

Lemma findAll_no_close n s :
  occurs "}" s = false -> regexp.findAll n s = [].
Proof.
  revert s. induction n as [|n IH]; intros s H; simpl; [done|].
  destruct s as [|c rest]; [done|].
  simpl in H. apply orb_false_elim in H as [Hc Hrest].
  destruct (regexp.matchAt (String.String c rest)) as [[g tl]|] eqn:Hm;
    [|by apply IH].
  exfalso. unfold regexp.matchAt in Hm.
  rewrite spanNotClose_no_close in Hm by done.
  destruct c as [[] [] [] [] [] [] [] []]; try discriminate Hm;
    destruct rest; discriminate Hm.
Qed.

(** X10.  A pattern in which no brace opens, or in which no brace closes
    (so also a placeholder left open at the end), gives no path parameter:
    the loop over the matches leaves the operation as it is. *)
Theorem pattern_without_braces_adds_nothing op pat :
  occurs "{" pat = false \/ occurs "}" pat = false ->
  regexp.FindAllStringSubmatch pat = [] /\ withPathParams op pat = op.
Proof.
  intros H.
  assert (Hnone : regexp.FindAllStringSubmatch pat = []).
  { unfold regexp.FindAllStringSubmatch.
    destruct H; [by apply findAll_no_open|by apply findAll_no_close]. }
  split; [done|]. unfold withPathParams. by rewrite Hnone.
Qed.

Lemma pattern_without_braces_adds_nothing_witness :
  regexp.FindAllStringSubmatch "/users/{id" = [] /\
  withPathParams (NewOperation "") "/users/{id" = NewOperation "".
Proof.
  apply (pattern_without_braces_adds_nothing (NewOperation "") "/users/{id").
  right. reflexivity.
Defined.

(** ** Parameters of an operation *)

Lemma same_slot_paramKey p q :
  same_slot p q = true <-> paramKey p = paramKey q.
Proof.
  unfold same_slot, paramKey. rewrite andb_true_iff, !String.eqb_eq.
  split; [by intros [-> ->]|by intros [= -> ->]].
Qed.

Lemma replace_param_keys ps param :
  match replace_param ps param with
  | Some ps' => paramKey <$> ps' = paramKey <$> ps
  | None => paramKey param ∉ paramKey <$> ps
  end.
Proof.
  induction ps as [|p ps IH]; simpl.
  - apply not_elem_of_nil.
  - destruct (same_slot p param) eqn:Hs.
    + apply same_slot_paramKey in Hs.
      change (paramKey param :: (paramKey <$> ps) =
              paramKey p :: (paramKey <$> ps)). by rewrite Hs.
    + destruct (replace_param ps param) as [ps'|].
      * change (paramKey p :: (paramKey <$> ps') =
                paramKey p :: (paramKey <$> ps)). by rewrite IH.
      * change (paramKey param ∉ paramKey p :: (paramKey <$> ps)).
        rewrite not_elem_of_cons. split; [|done].
        intros Heq. symmetry in Heq. apply same_slot_paramKey in Heq.
        congruence.
Qed.

Lemma AddParam_unique op param :
  NoDup (paramKey <$> OpParameters op) ->
  NoDup (paramKey <$> OpParameters (AddParam op param)).
Proof.
  intros Hnd. unfold AddParam; simpl.
  pose proof (replace_param_keys (OpParameters op) param) as Hk.
  destruct (replace_param (OpParameters op) param) as [ps'|].
  - by rewrite Hk.
  - rewrite fmap_app. apply NoDup_app. split; [done|]. split.
    + intros k Hin Hk'. simpl in Hk'. apply list_elem_of_singleton in Hk'.
      by subst k.
    + simpl. apply NoDup_singleton.
Qed.

(** X11.  However many placeholders of a pattern repeat a name, and
    whatever the name of the body type, the operation built for a route
    never has two parameters with the same name and the same location. *)
Theorem operation_parameters_are_unique doc pat h l doc' op :
  buildOperation doc pat h = (l, Returned (doc', op)) ->
  NoDup (paramKey <$> OpParameters op).
Proof.
  intros H.
  apply buildOperation_Returned in H as (_ & _ & op2 & -> & Hop2).
  assert (Hnd : NoDup (paramKey <$> OpParameters op2)).
  { destruct Hop2 as [->|(name & schema & ->)];
      [apply NoDup_nil_2|apply NoDup_singleton]. }
  unfold withPathParams.
  generalize (regexp.FindAllStringSubmatch pat). intros ms.
  clear Hop2. revert op2 Hnd.
  induction ms as [|m ms IH]; intros op2 Hnd; simpl.
  - done.
  - by apply IH, AddParam_unique.
Qed.

Lemma operation_parameters_are_unique_witness :
  exists l doc' op,
    buildOperation newDoc "/orgs/{id}/users/{id}" (ghttp.Foreign None None) =
      (l, Returned (doc', op)) /\
    NoDup (paramKey <$> OpParameters op).
Proof.
  destruct (buildOperation newDoc "/orgs/{id}/users/{id}"
              (ghttp.Foreign None None)) as [l [[doc' op]|msg]] eqn:H.
  - exists l, doc', op. split; [reflexivity|].
    exact (operation_parameters_are_unique
             newDoc "/orgs/{id}/users/{id}" (ghttp.Foreign None None)
             l doc' op H).
  - vm_compute in H. discriminate H.
Defined.

(** ** The operation of a route *)

Lemma addDefinition_nil doc : addDefinition doc None = panic nilDeref.
Proof. reflexivity. Qed.

(** X12.  The operation built for a route depends on nothing but the
    pattern and the handler: whenever the callback gets through, whatever
    the document holds by then, the operation is the body parameter and
    the 200 response referring to the declared types by name, followed by
    the path parameters. *)
Theorem buildOperation_is_operationFor doc pat h l doc' op :
  buildOperation doc pat h = (l, Returned (doc', op)) ->
  op = operationFor pat h.
Proof.
  unfold buildOperation, withPayload, withResponse, operationFor, refTo.
  intros H.
  destruct (ghttp.PayloadTyper h) as [[pt|]|];
    destruct (ghttp.ResponseTyper h) as [[rt|]|]; simpl in H.
  - destruct (addDefinition doc (Some pt)) as [l1 [d1|m1]]; [|done].
    simpl in H.
    destruct (addDefinition d1 (Some rt)) as [l2 [d2|m2]]; [|done].
    simpl in H. by injection H as _ _ <-.
  - destruct (addDefinition doc (Some pt)) as [l1 [d1|m1]]; done.
  - destruct (addDefinition doc (Some pt)) as [l1 [d1|m1]]; [|done].
    simpl in H. by injection H as _ _ <-.
  - done.
  - done.
  - done.
  - destruct (addDefinition doc (Some rt)) as [l2 [d2|m2]]; [|done].
    simpl in H. by injection H as _ _ <-.
  - done.
  - by injection H as _ _ <-.
Qed.

Lemma buildOperation_is_operationFor_witness :
  exists l doc' op,
    buildOperation newDoc "/a/{id}" (ghttp.NewJSONHandler tA) =
      (l, Returned (doc', op)) /\
    op = operationFor "/a/{id}" (ghttp.NewJSONHandler tA).
Proof.
  destruct (buildOperation newDoc "/a/{id}" (ghttp.NewJSONHandler tA))
    as [l [[doc' op]|msg]] eqn:H.
  - exists l, doc', op. split; [reflexivity|].
    exact (buildOperation_is_operationFor
             newDoc "/a/{id}" (ghttp.NewJSONHandler tA) l doc' op H).
  - vm_compute in H. discriminate H.
Defined.

(** ** Slots of a path item *)

Lemma slotOf_Some m s : slotOf m = Some s -> m = methodOf s.
Proof.
  unfold slotOf.
  repeat match goal with
         | |- context [String.eqb m ?k] =>
             destruct (String.eqb_spec m k) as [->|_];
             [by intros [= <-]|]
         end.
  done.
Qed.

Lemma slotOf_known m : m ∈ knownMethods <-> is_Some (slotOf m).
Proof.
  split.
  - unfold knownMethods. intros H.
    repeat (apply elem_of_cons in H as [->|H]; [by eexists|]).
    by apply elem_of_nil in H.
  - intros [s ->%slotOf_Some]. unfold knownMethods. destruct s; set_solver.
Qed.

Lemma getSlot_assign_same pathItem m op s :
  slotOf m = Some s -> getSlot s (assign pathItem m op) = Some op.
Proof.
  intros ->%slotOf_Some. by destruct s.
Qed.

Lemma getSlot_assign_other pathItem m op s :
  slotOf m <> Some s -> getSlot s (assign pathItem m op) = getSlot s pathItem.
Proof.
  destruct (slotOf m) as [s'|] eqn:Hm.
  - apply slotOf_Some in Hm as ->. intros Hne.
    destruct s', s; try reflexivity; by destruct Hne.
  - intros _. rewrite assign_unknown; [done|].
    intros [s' Hs']%slotOf_known. congruence.
Qed.

Lemma walkFn_operationAt doc r l doc' pat m s :
  walkFn doc r = (l, Returned doc') ->
  slotOf m = Some s ->
  operationAt doc' pat m =
    if String.eqb (route r) pat && String.eqb (method r) m
    then Some (operationFor pat (handler r))
    else operationAt doc pat m.
Proof.
  intros H Hs.
  apply walkFn_Returned in H as (doc2 & op & Hb & _ & _ & Hat & Hother).
  apply buildOperation_is_operationFor in Hb. subst op.
  unfold operationAt. rewrite Hs.
  destruct (String.eqb_spec (route r) pat) as [<-|Hpat]; simpl.
  - rewrite Hat.
    destruct (String.eqb_spec (method r) m) as [Hm|Hm].
    + apply getSlot_assign_same. by rewrite Hm.
    + rewrite getSlot_assign_other.
      * destruct (Paths doc !! route r); [done|]. by destruct s.
      * intros Hs'. apply slotOf_Some in Hs, Hs'. congruence.
  - by rewrite Hother.
Qed.

Lemma Walk_operationAt routes doc l doc' pat m s :
  Walk routes doc = (l, Returned doc') ->
  slotOf m = Some s ->
  operationAt doc' pat m =
    match lastRoute routes pat m with
    | Some r => Some (operationFor pat (handler r))
    | None => operationAt doc pat m
    end.
Proof.
  revert doc l. induction routes as [|r rest IH]; intros doc l H Hs.
  - by injection H as _ <-.
  - rewrite Walk_cons in H.
    apply bind_Returned in H as (l1 & doc1 & l2 & Hw & Hrest & _).
    rewrite (IH _ _ Hrest Hs). simpl.
    destruct (lastRoute rest pat m) as [r'|]; [done|].
    rewrite (walkFn_operationAt _ _ _ _ pat m s Hw Hs).
    by destruct (String.eqb (route r) pat && String.eqb (method r) m).
Qed.

(** X13.  In a built document, the operation under a pattern and one of
    the seven methods is the one of the last walked route with that
    pattern and method, built from its handler, and there is none when
    no route has them; under any other method name there is never one.
    A later route thus replaces an earlier one with the same pattern and
    method, and routes with other methods of the pattern stay. *)
Theorem document_holds_last_route_per_method routes l doc pat m :
  initializeDoc routes = (l, Returned doc) ->
  operationAt doc pat m =
    if bool_decide (m ∈ knownMethods)
    then (fun r => operationFor pat (handler r)) <$> lastRoute routes pat m
    else None.
Proof.
  intros H. case_bool_decide as Hm.
  - apply slotOf_known in Hm as [s Hs].
    rewrite (Walk_operationAt _ _ _ _ pat m s H Hs).
    destruct (lastRoute routes pat m); [done|].
    unfold operationAt. simpl. rewrite lookup_empty. by rewrite Hs.
  - unfold operationAt. destruct (slotOf m) as [s|] eqn:Hs; [|done].
    destruct Hm. apply slotOf_known. by eexists.
Qed.

Lemma document_holds_last_route_per_method_witness :
  exists l doc,
    initializeDoc routesSamePattern = (l, Returned doc) /\
    operationAt doc "/w/{id}" "GET" =
      Some (operationFor "/w/{id}" (ghttp.NewJSONHandler tB)) /\
    operationAt doc "/w/{id}" "PUT" =
      Some (operationFor "/w/{id}" (ghttp.Foreign None None)) /\
    operationAt doc "/w/{id}" "TRACE" = None.
Proof.
  destruct (initializeDoc routesSamePattern) as [l [doc|msg]] eqn:H.
  - exists l, doc. split; [reflexivity|].
    pose proof (fun m => document_holds_last_route_per_method
                           routesSamePattern l doc "/w/{id}" m H) as Hat.
    split; [exact (Hat "GET")|]. split; [exact (Hat "PUT")|exact (Hat "TRACE")].
  - vm_compute in H. discriminate H.
Defined.

(** ** The document as a whole *)

Lemma buildOperation_version doc pat h l doc' op :
  buildOperation doc pat h = (l, Returned (doc', op)) ->
  SwaggerVersion doc' = SwaggerVersion doc.
Proof.
  unfold buildOperation, withPayload, withResponse. intros H.
  apply bind_Returned in H as (l1 & [doc1 op1] & l2 & Hp & H & _).
  apply bind_Returned in H as (l3 & [doc2 op2] & l4 & Hr & H & _).
  injection H as _ <- _.
  assert (H1 : SwaggerVersion doc1 = SwaggerVersion doc).
  { destruct (ghttp.PayloadTyper h) as [pt|]; [|by injection Hp as _ <- _].
    apply bind_Returned in Hp as (la & da & lb & Hadd & Hp & _).
    apply addDefinition_Returned in Hadd as (t' & -> & _ & Hv & _).
    simpl in Hp. by injection Hp as _ <- _. }
  assert (H2 : SwaggerVersion doc2 = SwaggerVersion doc1).
  { destruct (ghttp.ResponseTyper h) as [rt|]; [|by injection Hr as _ <- _].
    apply bind_Returned in Hr as (la & da & lb & Hadd & Hr & _).
    apply addDefinition_Returned in Hadd as (t' & -> & _ & Hv & _).
    simpl in Hr. by injection Hr as _ <- _. }
  congruence.
Qed.

Lemma Walk_version routes doc l doc' :
  Walk routes doc = (l, Returned doc') ->
  SwaggerVersion doc' = SwaggerVersion doc.
Proof.
  revert doc l. induction routes as [|r rest IH]; intros doc l H.
  - by injection H as _ <-.
  - rewrite Walk_cons in H.
    apply bind_Returned in H as (l1 & doc1 & l2 & Hw & Hrest & _).
    rewrite (IH _ _ Hrest).
    rewrite walkFn_unfold in Hw.
    apply bind_Returned in Hw as (la & [doc2 op] & lb & Hb & Hw & _).
    injection Hw as _ <-. simpl.
    rewrite (buildOperation_version _ _ _ _ _ _ Hb).
    unfold ensured. by destruct (Paths doc !! route r).
Qed.

(** X14.  A built document carries the version "2.0", and the keys of its
    paths map are exactly the patterns of the walked routes: no pattern is
    missing and nothing else gets in. *)
Theorem document_paths_are_the_walked_patterns routes l doc :
  initializeDoc routes = (l, Returned doc) ->
  SwaggerVersion doc = "2.0" /\
  forall pat, is_Some (Paths doc !! pat) <-> exists r, r ∈ routes /\ route r = pat.
Proof.
  intros H. split.
  - by rewrite (Walk_version _ _ _ _ H).
  - intros pat. destruct (Walk_paths _ _ _ _ H pat) as [Hdom _].
    rewrite Hdom. simpl. rewrite lookup_empty. split; [|by right].
    intros [[x Hx]|Hr]; [done|done].
Qed.

Lemma document_paths_are_the_walked_patterns_witness :
  exists l doc,
    initializeDoc routesWithTrace = (l, Returned doc) /\
    SwaggerVersion doc = "2.0" /\
    forall pat, is_Some (Paths doc !! pat) <->
                exists r, r ∈ routesWithTrace /\ route r = pat.
Proof.
  destruct (initializeDoc routesWithTrace) as [l [doc|msg]] eqn:H.
  - exists l, doc. split; [reflexivity|].
    exact (document_paths_are_the_walked_patterns routesWithTrace l doc H).
  - vm_compute in H. discriminate H.
Defined.

Lemma addDefinition_defines doc t l doc' :
  addDefinition doc (Some t) = (l, Returned doc') ->
  is_Some (Definitions doc' !! getName t) \/ nilSchema t = true.
Proof.
  unfold addDefinition. simpl.
  destruct (Definitions doc !! getName t) as [s0|] eqn:Hlook.
  - intros [= _ <-]. left. by eexists.
  - destruct (getProperty_nil_iff t) as [[Hnil _] _].
    destruct (getProperty t) as [l1 [[p|]|msg]]; simpl.
    + intros [= _ <-]. left. simpl. rewrite lookup_insert_eq. by eexists.
    + intros _. right. by apply Hnil.
    + done.
Qed.

Lemma buildOperation_defines doc pat h l doc' op t :
  buildOperation doc pat h = (l, Returned (doc', op)) ->
  t ∈ declaredTypes h ->
  is_Some (Definitions doc' !! getName t) \/ nilSchema t = true.
Proof.
  unfold buildOperation, withPayload, withResponse, declaredTypes. intros H.
  apply bind_Returned in H as (l1 & [doc1 op1] & l2 & Hp & H & _).
  apply bind_Returned in H as (l3 & [doc2 op2] & l4 & Hr & H & _).
  injection H as _ <- _.
  assert (Hkeep : forall name s, Definitions doc1 !! name = Some s ->
                                 Definitions doc2 !! name = Some s).
  { destruct (ghttp.ResponseTyper h) as [rt|]; [|by injection Hr as _ <- _].
    apply bind_Returned in Hr as (la & da & lb & Hadd & Hr & _).
    apply addDefinition_Returned in Hadd as (t' & -> & _ & _ & [Hk _]).
    simpl in Hr. by injection Hr as _ <- _. }
  rewrite elem_of_app. intros [Ht|Ht].
  - destruct (ghttp.PayloadTyper h) as [[pt|]|];
      try (by apply elem_of_nil in Ht).
    apply list_elem_of_singleton in Ht as ->.
    apply bind_Returned in Hp as (la & da & lb & Hadd & Hp & _).
    simpl in Hp. injection Hp as _ <- _.
    apply addDefinition_defines in Hadd as [[s Hs]|Hnil]; [|by right].
    left. exists s. by apply Hkeep.
  - destruct (ghttp.ResponseTyper h) as [[rt|]|];
      try (by apply elem_of_nil in Ht).
    apply list_elem_of_singleton in Ht as ->.
    apply bind_Returned in Hr as (la & da & lb & Hadd & Hr & _).
    simpl in Hr. injection Hr as _ <- _.
    by apply addDefinition_defines in Hadd.
Qed.

(** X15.  In a built document every reference resolves, but for types
    without a schema: each type a walked handler declares has an entry
    under its name in the definitions, unless it is a leaf of a kind
    without a case, for which nothing is stored although the operation
    refers to it by name. *)
Theorem declared_types_are_defined routes l doc r t :
  initializeDoc routes = (l, Returned doc) ->
  r ∈ routes -> t ∈ declaredTypes (handler r) ->
  is_Some (Definitions doc !! getName t) \/ nilSchema t = true.
Proof.
  unfold initializeDoc. generalize newDoc. revert l.
  induction routes as [|r0 rest IH]; intros l doc0 H Hr Ht.
  - by apply elem_of_nil in Hr.
  - rewrite Walk_cons in H.
    apply bind_Returned in H as (l1 & doc1 & l2 & Hw & Hrest & _).
    apply elem_of_cons in Hr as [->|Hr]; [|by eapply IH].
    apply walkFn_Returned in Hw as (doc2 & op & Hb & Hdefs & _).
    destruct (buildOperation_defines _ _ _ _ _ _ t Hb Ht) as [[s Hs]|Hnil];
      [|by right].
    left. exists s. apply Walk_grows in Hrest as [Hkeep _].
    apply Hkeep. by rewrite Hdefs.
Qed.

Lemma declared_types_are_defined_witness :
  exists l doc,
    initializeDoc routesAB = (l, Returned doc) /\
    (is_Some (Definitions doc !! getName tB) \/ nilSchema tB = true).
Proof.
  destruct (initializeDoc routesAB) as [l [doc|msg]] eqn:H.
  - exists l, doc. split; [reflexivity|].
    apply (declared_types_are_defined routesAB l doc
             (mkRoute "GET" "/b" (ghttp.NewJSONHandler tB)) tB H).
    + right. left.
    + left.
  - vm_compute in H. discriminate H.
Defined.

Lemma Walk_app pre post doc :
  Walk (pre ++ post) doc = let* doc1 := Walk pre doc in Walk post doc1.
Proof.
  revert doc. induction pre as [|r pre IH]; intros doc.
  - simpl. by destruct (Walk post doc).
  - change ((r :: pre) ++ post) with (r :: (pre ++ post)).
    rewrite !Walk_cons.
    destruct (walkFn doc r) as [l1 [doc1|msg]]; [|done].
    simpl. rewrite IH.
    destruct (Walk pre doc1) as [l2 [doc2|msg2]]; [|done].
    simpl. destruct (Walk post doc2) as [l3 o3]. by rewrite app_assoc.
Qed.

(** X16.  Routes walked later never touch what the earlier ones left in
    the definitions: when the build over a list of routes returns, so did
    the build over any front part of the list, its log is the start of
    the log, and each of its definitions is in the final document
    unchanged.  So of two declared types with one name the first walked
    keeps the entry. *)
Theorem definitions_of_earlier_routes_stay pre post l doc :
  initializeDoc (pre ++ post) = (l, Returned doc) ->
  exists l1 doc1 l2,
    initializeDoc pre = (l1, Returned doc1) /\ l = l1 ++ l2 /\
    (forall name s, Definitions doc1 !! name = Some s ->
                    Definitions doc !! name = Some s) /\
    (forall pat, is_Some (Paths doc1 !! pat) -> is_Some (Paths doc !! pat)).
Proof.
  unfold initializeDoc. rewrite Walk_app. intros H.
  apply bind_Returned in H as (l1 & doc1 & l2 & Hpre & Hpost & ->).
  exists l1, doc1, l2. split; [done|]. split; [done|]. split.
  - by apply Walk_grows in Hpost as [Hkeep _].
  - intros pat Hp. destruct (Walk_paths _ _ _ _ Hpost pat) as [Hdom _].
    apply Hdom. by left.
Qed.

Lemma definitions_of_earlier_routes_stay_witness :
  exists l doc l1 doc1 l2,
    initializeDoc ([mkRoute "GET" "/a" (ghttp.NewJSONHandler tA)] ++
                   [mkRoute "GET" "/o" (ghttp.NewJSONHandler tOtherA)]) =
      (l, Returned doc) /\
    initializeDoc [mkRoute "GET" "/a" (ghttp.NewJSONHandler tA)] =
      (l1, Returned doc1) /\ l = l1 ++ l2 /\
    (forall name s, Definitions doc1 !! name = Some s ->
                    Definitions doc !! name = Some s) /\
    (forall pat, is_Some (Paths doc1 !! pat) -> is_Some (Paths doc !! pat)).
Proof.
  destruct (initializeDoc ([mkRoute "GET" "/a" (ghttp.NewJSONHandler tA)] ++
                           [mkRoute "GET" "/o" (ghttp.NewJSONHandler tOtherA)]))
    as [l [doc|msg]] eqn:H.
  - destruct (definitions_of_earlier_routes_stay _ _ l doc H)
      as (l1 & doc1 & l2 & H1).
    exists l, doc, l1, doc1, l2. split; [reflexivity|exact H1].
  - vm_compute in H. discriminate H.
Defined.

(** X17.  A handler whose capability hands back a nil type stops the
    build: for an Output-only handler over an interface type, whose
    [ResponseType] is the [TypeOf] of a nil interface value, the callback
    panics on the first use of the type, and with it the build over any
    routes that include such a route, once the routes before it got
    through. *)
Theorem interface_response_type_panics tO m pat pre post l1 doc1 :
  kind tO = Leaf KInterface ->
  initializeDoc pre = (l1, Returned doc1) ->
  ghttp.ResponseTyper (ghttp.NewJSONHandler tO) = Some None /\
  initializeDoc (pre ++ mkRoute m pat (ghttp.NewJSONHandler tO) :: post) =
    (l1, Panicked nilDeref).
Proof.
  intros Hk Hpre.
  assert (Hrt : ghttp.ResponseTyper (ghttp.NewJSONHandler tO) = Some None).
  { simpl. unfold ghttp.JSONHandler_ResponseType, TypeOf_zero. by rewrite Hk. }
  split; [done|].
  assert (Hw : Walk (mkRoute m pat (ghttp.NewJSONHandler tO) :: post) doc1 =
               ([], Panicked nilDeref)).
  { rewrite Walk_cons, walkFn_unfold.
    unfold buildOperation, withPayload, withResponse. simpl handler.
    by rewrite Hrt. }
  unfold initializeDoc in *. rewrite Walk_app, Hpre. unfold bind.
  by rewrite Hw, app_nil_r.
Qed.

Lemma interface_response_type_panics_witness :
  ghttp.ResponseTyper (ghttp.NewJSONHandler tAny) = Some None /\
  initializeDoc ([traceRoute] ++
                 mkRoute "GET" "/any" (ghttp.NewJSONHandler tAny) :: []) =
    ([], Panicked nilDeref).
Proof.
  apply (interface_response_type_panics tAny "GET" "/any" [traceRoute] []
           [] (setPaths newDoc {["/debug/{id}" := emptyPathItem]})).
  - reflexivity.
  - by vm_compute.
Defined.

(** X18.  A declared type without a schema is not remembered: when its
    name is not in the table, [addDefinition] logs the diagnostic and
    returns the document as it was, so the next registration of the type
    converts and logs again. *)
Theorem addDefinition_does_not_cache_nil doc t :
  nilSchema t = true ->
  Definitions doc !! getName t = None ->
  addDefinition doc (Some t) = ([unknownKindLine t], Returned doc) /\
  (let* doc1 := addDefinition doc (Some t) in addDefinition doc1 (Some t)) =
    ([unknownKindLine t; unknownKindLine t], Returned doc).
Proof.
  intros (k & name & str & -> & Hk & Hs)%nilSchema_leaf Hnone.
  assert (Hadd : addDefinition doc (Some (TLeaf k name str)) =
                 ([unknownKindLine (TLeaf k name str)], Returned doc)).
  { unfold addDefinition, getName_, getProperty_.
    rewrite bind_ret_l, Hnone.
    by rewrite getProperty_unsupported_leaf. }
  split; [done|]. rewrite Hadd. simpl bind. by rewrite Hadd.
Qed.

Lemma addDefinition_does_not_cache_nil_witness :
  addDefinition newDoc (Some tMapStringInt) =
    ([unknownKindLine tMapStringInt], Returned newDoc) /\
  (let* doc1 := addDefinition newDoc (Some tMapStringInt) in
   addDefinition doc1 (Some tMapStringInt)) =
    ([unknownKindLine tMapStringInt; unknownKindLine tMapStringInt],
     Returned newDoc).
Proof.
  apply (addDefinition_does_not_cache_nil newDoc tMapStringInt); reflexivity.
Defined.

(** ** The document endpoint, one request after the other *)

Section HandlerFuncFacts.
Variable encodeDoc : Swagger -> option string.

(** X19.  Once a request to the document endpoint has been answered, every
    later request is answered from the same document and logs nothing:
    content type, status 200 and then the document built from the routes
    the router held at the first request, so that routes registered since
    never show up.  Only what follows, the error printed when encoding
    fails, is the later request's own. *)
Theorem HandlerFunc_answers_from_first_build routes0 l events cell1 :
  HandlerFunc encodeDoc routes0 None = ((l, Returned events), cell1) ->
  exists doc,
    initializeDoc routes0 = (l, Returned doc) /\
    cell1 = Some (Returned doc) /\
    firstn 3 events = [DocHeaderSet "Content-Type" "application/json";
                       DocWroteHeader 200; DocEncoded doc] /\
    forall routes' encodeDoc',
      exists events',
        HandlerFunc encodeDoc' routes' cell1 = (([], Returned events'), cell1) /\
        firstn 3 events' = firstn 3 events /\
        skipn 3 events' =
          match encodeDoc' doc with
          | Some err => [DocPrinted ("Error encoding doc: " ++ err ++ newline)]
          | None => []
          end.
Proof.
  unfold HandlerFunc, onceFn.
  destruct (initializeDoc routes0) as [l0 [doc|msg]] eqn:Hinit; simpl;
    [|discriminate].
  intros [= <- <- <-]. rewrite app_nil_r.
  exists doc. split; [done|]. split; [done|]. split; [done|].
  intros routes' encodeDoc'. eexists. split; [reflexivity|]. done.
Qed.

(** X20.  When the build panics at the first request, nothing is written
    for that request, and every later request panics in the same way
    without building again, whatever routes the router holds then. *)
Theorem HandlerFunc_failed_build_is_final routes0 l msg cell1 :
  HandlerFunc encodeDoc routes0 None = ((l, Panicked msg), cell1) ->
  initializeDoc routes0 = (l, Panicked msg) /\
  forall routes',
    HandlerFunc encodeDoc routes' cell1 = (([], Panicked msg), cell1).
Proof.
  unfold HandlerFunc, onceFn.
  destruct (initializeDoc routes0) as [l0 [doc|msg0]] eqn:Hinit; simpl;
    [discriminate|].
  by intros [= <- <- <-].
Qed.

End HandlerFuncFacts.

Lemma HandlerFunc_answers_from_first_build_witness :
  exists l events cell1 doc,
    HandlerFunc (fun _ => None) routesWithTrace None =
      ((l, Returned events), cell1) /\
    initializeDoc routesWithTrace = (l, Returned doc) /\
    cell1 = Some (Returned doc) /\
    firstn 3 events = [DocHeaderSet "Content-Type" "application/json";
                       DocWroteHeader 200; DocEncoded doc] /\
    forall routes' encodeDoc',
      exists events',
        HandlerFunc encodeDoc' routes' cell1 = (([], Returned events'), cell1) /\
        firstn 3 events' = firstn 3 events /\
        skipn 3 events' =
          match encodeDoc' doc with
          | Some err => [DocPrinted ("Error encoding doc: " ++ err ++ newline)]
          | None => []
          end.
Proof.
  destruct (HandlerFunc (fun _ => None) routesWithTrace None)
    as [[l [events|msg]] cell1] eqn:H.
  - destruct (HandlerFunc_answers_from_first_build
                (fun _ => None) routesWithTrace l events cell1 H)
      as (doc & Hdoc).
    exists l, events, cell1, doc. split; [reflexivity|exact Hdoc].
  - vm_compute in H. discriminate H.
Defined.

Lemma HandlerFunc_failed_build_is_final_witness :
  exists l msg cell1,
    HandlerFunc (fun _ => None)
      [mkRoute "GET" "/any" (ghttp.NewJSONHandler tAny)] None =
      ((l, Panicked msg), cell1) /\
    initializeDoc [mkRoute "GET" "/any" (ghttp.NewJSONHandler tAny)] =
      (l, Panicked msg) /\
    forall routes',
      HandlerFunc (fun _ => None) routes' cell1 = (([], Panicked msg), cell1).
Proof.
  destruct (HandlerFunc (fun _ => None)
              [mkRoute "GET" "/any" (ghttp.NewJSONHandler tAny)] None)
    as [[l [events|msg]] cell1] eqn:H.
  - vm_compute in H. discriminate H.
  - exists l, msg, cell1. split; [reflexivity|].
    exact (HandlerFunc_failed_build_is_final (fun _ => None) _ l msg cell1 H).
Defined.


(** ** Nullable schemas and the log *)

(** X23.  The nullable mark is on the schemas of pointer types and on no
    others: a schema [getProperty] returns is nullable exactly when the
    type is a pointer that bears no special name. *)
Theorem nullable_iff_pointer t l s :
  getProperty t = (l, Returned (Some s)) ->
  (Nullable s = true <-> kind t = KPointer /\ specialName t = false).
Proof.
  intros H. destruct (specialName t) eqn:Hsp.
  { destruct (getProperty_special t Hsp) as [Hs|Hs]; rewrite Hs in H;
      injection H as _ <-; simpl; (split; [done|by intros [_ ?]]). }
  destruct t as [k name str|name str len elem|name str elem
                |name str elem|name str fields].
  - apply specialName_false in Hsp as [H1 H2]. simpl in H1, H2.
    unfold getProperty in H. simpl String_ in H. rewrite H1, H2 in H.
    destruct k; simpl in H; try discriminate H;
      injection H as _ <-; simpl; (split; [done|by intros [? _]]).
  - apply specialName_false in Hsp as [H1 H2]. simpl in H1, H2, H.
    rewrite H1, H2 in H.
    apply bind_Returned in H as (l1 & items & l2 & _ & Hr & _).
    injection Hr as _ <-. simpl. split; [done|by intros [? _]].
  - rewrite getProperty_pointer in H by done.
    apply bind_Returned in H as (l1 & property & l2 & _ & Hr & _).
    destruct property as [p|]; [|discriminate].
    injection Hr as _ <-. destruct p. simpl. done.
  - apply specialName_false in Hsp as [H1 H2]. simpl in H1, H2, H.
    rewrite H1, H2 in H.
    apply bind_Returned in H as (l1 & items & l2 & _ & Hr & _).
    injection Hr as _ <-. simpl. split; [done|by intros [? _]].
  - rewrite getProperty_struct in H by done.
    apply bind_Returned in H as (l1 & props & l2 & _ & Hr & _).
    injection Hr as _ <-. simpl. split; [done|by intros [? _]].
Qed.

Lemma nullable_iff_pointer_witness :
  exists l s,
    getProperty (TPointer "" "*main.Inner" tInner) = (l, Returned (Some s)) /\
    (Nullable s = true <->
     kind (TPointer "" "*main.Inner" tInner) = KPointer /\
     specialName (TPointer "" "*main.Inner" tInner) = false).
Proof.
  destruct (getProperty (TPointer "" "*main.Inner" tInner))
    as [l [[s|]|msg]] eqn:H.
  - exists l, s. split; [reflexivity|].
    exact (nullable_iff_pointer (TPointer "" "*main.Inner" tInner) l s H).
  - vm_compute in H. discriminate H.
  - vm_compute in H. discriminate H.
Defined.

Lemma bind_log_Forall {A B} (P : string -> Prop) (m : M A) (k : A -> M B) :
  Forall P (fst m) -> (forall a, Forall P (fst (k a))) ->
  Forall P (fst (bind m k)).
Proof.
  intros Hm Hk. destruct m as [l [a|msg]]; simpl in *; [|done].
  specialize (Hk a). destruct (k a) as [l' o]. simpl in *.
  apply Forall_app. by split.
Qed.

Lemma fieldsLoop_log fs :
  Forall (fun f => Forall isDiagnostic (fst (getProperty (FieldType f)))) fs ->
  forall props, Forall isDiagnostic (fst (fieldsLoop getProperty fs props)).
Proof.
  induction 1 as [|f rest Hf _ IH]; intros props; [by constructor|].
  rewrite fieldsLoop_cons. apply bind_log_Forall; [done|].
  intros o. apply IH.
Qed.

Lemma getProperty_log t : Forall isDiagnostic (fst (getProperty t)).
Proof.
  induction t as [k name str|name str len elem IH|name str elem IH
                 |name str elem IH|name str fields IH] using rtype_nested_ind.
  all: match goal with
       | |- context [getProperty ?t] =>
           destruct (specialName t) eqn:Hsp;
           [destruct (getProperty_special t Hsp) as [Hs|Hs];
            rewrite Hs; by constructor|]
       end.
  - destruct (unsupportedLeaf k) eqn:Hk.
    + rewrite getProperty_unsupported_leaf by done.
      constructor; [|done]. exists (TLeaf k name str). split; [|done].
      unfold nilSchema. by rewrite Hsp.
    + apply specialName_false in Hsp as [H1 H2]. simpl in H1, H2.
      unfold getProperty. simpl String_. rewrite H1, H2.
      destruct k; try discriminate Hk; by constructor.
  - apply specialName_false in Hsp as [H1 H2]. simpl in H1, H2.
    simpl. rewrite H1, H2. apply bind_log_Forall; [done|].
    intros o. by constructor.
  - rewrite getProperty_pointer by done. apply bind_log_Forall; [done|].
    intros [p|]; by constructor.
  - apply specialName_false in Hsp as [H1 H2]. simpl in H1, H2.
    simpl. rewrite H1, H2. apply bind_log_Forall; [done|].
    intros o. by constructor.
  - rewrite getProperty_struct by done. apply bind_log_Forall.
    + by apply fieldsLoop_log.
    + intros props. by constructor.
Qed.

Lemma addDefinition_log doc t : Forall isDiagnostic (fst (addDefinition doc t)).
Proof.
  destruct t as [t|]; [|by constructor].
  unfold addDefinition, getName_, getProperty_. rewrite bind_ret_l.
  destruct (Definitions doc !! getName t); [by constructor|].
  apply bind_log_Forall; [apply getProperty_log|].
  intros [p|]; by constructor.
Qed.

Lemma walkFn_log doc r : Forall isDiagnostic (fst (walkFn doc r)).
Proof.
  rewrite walkFn_unfold. apply bind_log_Forall; [|intros [d o]; by constructor].
  unfold buildOperation. apply bind_log_Forall.
  - unfold withPayload. destruct (ghttp.PayloadTyper (handler r)) as [pt|];
      [|by constructor].
    apply bind_log_Forall; [apply addDefinition_log|].
    intros d. apply bind_log_Forall; [by destruct pt; constructor|].
    intros name. by constructor.
  - intros [doc1 op1]. apply bind_log_Forall; [|intros [d o]; by constructor].
    unfold withResponse. destruct (ghttp.ResponseTyper (handler r)) as [rt|];
      [|by constructor].
    apply bind_log_Forall; [apply addDefinition_log|].
    intros d. apply bind_log_Forall; [by destruct rt; constructor|].
    intros name. by constructor.
Qed.

(** X24.  Whether the build returns or panics, its log holds nothing but
    diagnostics for leaf types without a schema, each the "Unknown kind"
    line with the name and the kind of such a type; the same goes for a
    single conversion by [getProperty]. *)
Theorem build_logs_only_diagnostics (routes : list Route) (t : rtype) :
  Forall isDiagnostic (fst (initializeDoc routes)) /\
  Forall isDiagnostic (fst (getProperty t)).
Proof.
  split; [|apply getProperty_log].
  unfold initializeDoc. generalize newDoc.
  induction routes as [|r rest IH]; intros doc; [by constructor|].
  rewrite Walk_cons. apply bind_log_Forall; [apply walkFn_log|]. apply IH.
Qed.
